(** * LE ACL manager facade (system/gd/hci/facade/le_acl_manager_facade.cc)

    A shallow embedding of [LeAclManagerFacadeService]: the request
    bookkeeping ([per_connection_events_], [current_connection_request_]),
    the handle allocator [to_handle], the connection registry
    ([acl_connections_]) and the relay of the connection manager's
    callbacks into the event queues.

    Every member function of the service is a computation over the
    service's state; what is undefined behaviour in the C++ (indexing the
    vector past its end, dereferencing a null pointer) or a fatal ASSERT
    aborts the computation with a [fault]. *)

From Stdlib Require Import NArith ZArith List Lia Ascii String.
From stdpp Require Import base option list gmap strings pretty sorting.

Local Open Scope N_scope.

(** ** Fixed-width integers *)

(** Unsigned values are naturals in binary ([N]); a conversion to a
    [w]-bit unsigned type reduces modulo [2 ^ w]. *)
Definition uint8 (n : N) : N := n mod 2 ^ 8.
Definition uint16 (n : N) : N := n mod 2 ^ 16.
Definition uint32 (n : N) : N := n mod 2 ^ 32.

(** ** HCI values used by the facade *)

Record Address := mkAddress { address_bytes : list N }.

Definition AddressType := N.

Record AddressWithType := mkAddressWithType {
  GetAddress : Address;
  GetAddressType : AddressType
}.

(** [ErrorCode] and [DisconnectReason] are 8-bit enumerations; a
    [static_cast] between them keeps the underlying value. *)
Definition ErrorCode := N.
Definition DisconnectReason := N.

Definition SUCCESS : ErrorCode := 0x00.
Definition REMOTE_USER_TERMINATED_CONNECTION : DisconnectReason := 0x13.

Inductive Role := MASTER | SLAVE.

Inductive ClockAccuracy :=
  PPM_500 | PPM_250 | PPM_150 | PPM_100 | PPM_75 | PPM_50 | PPM_30 | PPM_20.

(** The packet builders the facade creates, with the arguments of their
    [Create] functions. *)
Inductive BasePacketBuilder :=
| LeConnectionCompleteBuilder
    (status : ErrorCode) (connection_handle : N) (role : Role)
    (peer_address_type : AddressType) (peer_address : Address)
    (conn_interval conn_latency supervision_timeout : N)
    (master_clock_accuracy : ClockAccuracy)
| DisconnectBuilder (connection_handle : N) (reason : DisconnectReason)
| RawBuilder (payload : list N).

(** Modelled from the spec: the binary packet serializer
    ([BasePacketBuilder::Serialize], hci_packets.h) is an external
    collaborator; the bytes it produces are kept as the packet they
    encode, whose fields are what a consumer of the event decodes. *)
Inductive packet_string := Serialized (packet : BasePacketBuilder).

Definition builder_to_string (builder : BasePacketBuilder) : packet_string :=
  Serialized builder.

(** ** RPC messages *)

Record LeConnectionMsg := mkLeConnectionMsg {
  address : string;
  address_type : N
}.

Record LeHandleMsg := mkLeHandleMsg { msg_handle : N }.

Record LeAclData := mkLeAclData {
  handle : N;
  payload : list N
}.

Record LeConnectionEvent := mkLeConnectionEvent { event : packet_string }.

Inductive StatusCode := OK | INVALID_ARGUMENT | RESOURCE_EXHAUSTED.

Record Status := mkStatus {
  error_code : StatusCode;
  error_message : string
}.

Definition Status_OK : Status := mkStatus OK "".

(** ** Collaborators *)

(** Modelled from the spec: the Event Channel
    ([bluetooth::grpc::GrpcEventQueue], grpc/grpc_event_queue.h) buffers
    typed events and replays them in order to the listener attached by
    [RunLoop]. *)
Record GrpcEventQueue (T : Type) := mkGrpcEventQueue {
  log_name : string;
  pending_events : list T
}.
Arguments mkGrpcEventQueue {T} _ _.
Arguments log_name {T} _.
Arguments pending_events {T} _.

Definition new_queue {T} (name : string) : GrpcEventQueue T :=
  mkGrpcEventQueue name [].

Definition OnIncomingEvent {T} (e : T) (q : GrpcEventQueue T) : GrpcEventQueue T :=
  mkGrpcEventQueue (log_name q) (pending_events q ++ [e]).

(** What the attached listener receives, and the queue left behind. *)
Definition deliver {T} (q : GrpcEventQueue T) : list T * GrpcEventQueue T :=
  (pending_events q, mkGrpcEventQueue (log_name q) []).

(** Modelled from the spec: a connection object of the connection manager
    ([LeAclConnection], hci/acl_manager.h) as the facade sees it: its two
    queue ends, the callbacks registered on it, and the requests made of
    it. *)
Record LeAclConnection := mkLeAclConnection {
  tx_queue : list BasePacketBuilder;
  rx_queue : list (list N);
  enqueue_callback : option LeAclData;
  dequeue_callback : option N;
  disconnect_callback : option N;
  management_callbacks : bool;
  disconnect_requests : list DisconnectReason;
  finished : bool
}.

Definition RegisterEnqueue (request : LeAclData) (c : LeAclConnection) :=
  mkLeAclConnection (tx_queue c) (rx_queue c) (Some request) (dequeue_callback c)
    (disconnect_callback c) (management_callbacks c) (disconnect_requests c) (finished c).

Definition UnregisterEnqueue (c : LeAclConnection) :=
  mkLeAclConnection (tx_queue c) (rx_queue c) None (dequeue_callback c)
    (disconnect_callback c) (management_callbacks c) (disconnect_requests c) (finished c).

Definition RegisterDequeue (bound_handle : N) (c : LeAclConnection) :=
  mkLeAclConnection (tx_queue c) (rx_queue c) (enqueue_callback c) (Some bound_handle)
    (disconnect_callback c) (management_callbacks c) (disconnect_requests c) (finished c).

Definition UnregisterDequeue (c : LeAclConnection) :=
  mkLeAclConnection (tx_queue c) (rx_queue c) (enqueue_callback c) None
    (disconnect_callback c) (management_callbacks c) (disconnect_requests c) (finished c).

Definition RegisterDisconnectCallback (bound_entry : N) (c : LeAclConnection) :=
  mkLeAclConnection (tx_queue c) (rx_queue c) (enqueue_callback c) (dequeue_callback c)
    (Some bound_entry) (management_callbacks c) (disconnect_requests c) (finished c).

Definition RegisterCallbacks (c : LeAclConnection) :=
  mkLeAclConnection (tx_queue c) (rx_queue c) (enqueue_callback c) (dequeue_callback c)
    (disconnect_callback c) true (disconnect_requests c) (finished c).

Definition connection_Disconnect (reason : DisconnectReason) (c : LeAclConnection) :=
  mkLeAclConnection (tx_queue c) (rx_queue c) (enqueue_callback c) (dequeue_callback c)
    (disconnect_callback c) (management_callbacks c) (disconnect_requests c ++ [reason])
    (finished c).

Definition Finish (c : LeAclConnection) :=
  mkLeAclConnection (tx_queue c) (rx_queue c) (enqueue_callback c) (dequeue_callback c)
    (disconnect_callback c) (management_callbacks c) (disconnect_requests c) true.

Definition set_rx_queue (q : list (list N)) (c : LeAclConnection) :=
  mkLeAclConnection (tx_queue c) q (enqueue_callback c) (dequeue_callback c)
    (disconnect_callback c) (management_callbacks c) (disconnect_requests c) (finished c).

(** ** The service's state

    [connections] is the heap of connection objects; a
    [std::shared_ptr<LeAclConnection>] is an index into it, so that the
    registry and the bound callbacks alias one object.
    [acl_manager_calls] records the calls of
    [acl_manager_->CreateLeConnection]. *)
Record State := mkState {
  acl_manager_calls : list AddressWithType;
  connections : list LeAclConnection;
  acl_connections_ : gmap N nat;
  pending_acl_data_ : GrpcEventQueue LeAclData;
  per_connection_events_ : list (GrpcEventQueue LeConnectionEvent);
  current_connection_request_ : N
}.

Definition initial_state : State :=
  mkState [] [] ∅ (new_queue "FetchAclData") [] 0.

Definition set_acl_manager_calls (v : list AddressWithType) (s : State) :=
  mkState v (connections s) (acl_connections_ s) (pending_acl_data_ s)
    (per_connection_events_ s) (current_connection_request_ s).

Definition set_connections (v : list LeAclConnection) (s : State) :=
  mkState (acl_manager_calls s) v (acl_connections_ s) (pending_acl_data_ s)
    (per_connection_events_ s) (current_connection_request_ s).

Definition set_acl_connections (v : gmap N nat) (s : State) :=
  mkState (acl_manager_calls s) (connections s) v (pending_acl_data_ s)
    (per_connection_events_ s) (current_connection_request_ s).

Definition set_pending_acl_data (v : GrpcEventQueue LeAclData) (s : State) :=
  mkState (acl_manager_calls s) (connections s) (acl_connections_ s) v
    (per_connection_events_ s) (current_connection_request_ s).

Definition set_per_connection_events
    (v : list (GrpcEventQueue LeConnectionEvent)) (s : State) :=
  mkState (acl_manager_calls s) (connections s) (acl_connections_ s)
    (pending_acl_data_ s) v (current_connection_request_ s).

Definition set_current_connection_request (v : N) (s : State) :=
  mkState (acl_manager_calls s) (connections s) (acl_connections_ s)
    (pending_acl_data_ s) (per_connection_events_ s) v.

(** ** Computations of the service *)

Inductive fault :=
| AssertFailed        (* a fatal ASSERT *)
| IndexOutOfRange     (* operator[] of the vector past its end *)
| NullDereference.    (* -> on a null pointer *)

Inductive outcome (A : Type) :=
| Done (a : A) (s : State)
| Abort (f : fault).
Arguments Done {A} _ _.
Arguments Abort {A} _.

Definition Facade (A : Type) : Type := State -> outcome A.

Global Instance Facade_ret : MRet Facade := fun A a s => Done a s.

Global Instance Facade_bind : MBind Facade := fun A B k m s =>
  match m s with
  | Done a s' => k a s'
  | Abort f => Abort f
  end.

Definition get : Facade State := fun s => Done s s.
Definition modify (f : State -> State) : Facade unit := fun s => Done tt (f s).
Definition abort {A} (f : fault) : Facade A := fun _ => Abort f.

(** The state an outcome finished in, if it finished. *)
Definition final_state {A} (o : outcome A) : option State :=
  match o with Done _ s => Some s | Abort _ => None end.

(** ** Primitive steps *)

Definition ASSERT {A} (o : option A) : Facade A :=
  match o with
  | Some a => mret a
  | None => abort AssertFailed
  end.

(** [acl_manager_->CreateLeConnection(peer)] *)
Definition CreateLeConnection (peer : AddressWithType) : Facade unit :=
  modify (fun s => set_acl_manager_calls (acl_manager_calls s ++ [peer]) s).

(** [std::shared_ptr<LeAclConnection> shared_connection = std::move(connection)] *)
Definition make_shared (connection : LeAclConnection) : Facade nat :=
  fun s => Done (length (connections s))
                (set_connections (connections s ++ [connection]) s).

(** [connection->f(...)] through a shared pointer. *)
Definition with_connection (connection : nat)
    (f : LeAclConnection -> LeAclConnection) : Facade unit :=
  fun s => match connections s !! connection with
           | Some c => Done tt (set_connections (<[connection := f c]> (connections s)) s)
           | None => Abort NullDereference
           end.

(** [acl_connections_.emplace(key, connection)]: [std::map::emplace]
    inserts only when the key is not in the map yet. *)
Definition emplace (key : N) (connection : nat) (m : gmap N nat) : gmap N nat :=
  match m !! key with
  | Some _ => m
  | None => <[key := connection]> m
  end.

(** [per_connection_events_.emplace_back(std::make_unique<GrpcEventQueue>(name))] *)
Definition emplace_back (name : string) : Facade unit :=
  modify (fun s => set_per_connection_events
                     (per_connection_events_ s ++ [new_queue name]) s).

(** [per_connection_events_[index]->OnIncomingEvent(e)] *)
Definition per_connection_OnIncomingEvent (index : N) (e : LeConnectionEvent)
    : Facade unit :=
  fun s => match per_connection_events_ s !! N.to_nat index with
           | Some q => Done tt (set_per_connection_events
                                  (<[N.to_nat index := OnIncomingEvent e q]>
                                     (per_connection_events_ s)) s)
           | None => Abort IndexOutOfRange
           end.

(** What an RPC handler does after the part modelled here: it has
    returned a status, or its thread is inside a queue's [RunLoop], or it
    waits on the promise that [enqueue_packet] fulfils. *)
Inductive rpc_result :=
| Returned (status : Status)
| InRunLoop (index : N)
| InFetchLoop
| WaitingForEnqueue.

(** [return per_connection_events_[index]->RunLoop(context, writer)] *)
Definition per_connection_RunLoop (index : N) : Facade rpc_result :=
  fun s => match per_connection_events_ s !! N.to_nat index with
           | Some _ => Done (InRunLoop index) s
           | None => Abort IndexOutOfRange
           end.

(** The listener attached to [per_connection_events_[index]] is written
    everything the queue holds; there is no listener where there is no
    queue. *)
Definition drain (index : N) : Facade (list LeConnectionEvent) :=
  fun s => match per_connection_events_ s !! N.to_nat index with
           | Some q => Done (fst (deliver q))
                            (set_per_connection_events
                               (<[N.to_nat index := snd (deliver q)]>
                                  (per_connection_events_ s)) s)
           | None => Abort IndexOutOfRange
           end.

(** ** The service *)

(** [static inline uint16_t to_handle(uint32_t current_request)]: the sum
    and the remainder are computed in 32-bit unsigned arithmetic. *)
Definition to_handle (current_request : N) : N :=
  uint16 (uint32 (current_request + 0x10) mod 0xe00).

Section Service.

(** [Address::FromString] (hci/address.h) is a parameter: [None] is its
    [false]. *)
Variable Address_FromString : string -> option Address.

Definition CreateConnection (request : LeConnectionMsg) : Facade rpc_result :=
  peer_address ← ASSERT (Address_FromString (address request));
  let peer := mkAddressWithType peer_address (uint8 (address_type request)) in
  CreateLeConnection peer;;
  s ← get;
  if current_connection_request_ s <? N.of_nat (length (per_connection_events_ s))
  then mret (Returned (mkStatus RESOURCE_EXHAUSTED "Only one outstanding request is supported"))
  else
    emplace_back ("connection attempt " +:+ pretty (current_connection_request_ s));;
    per_connection_RunLoop (current_connection_request_ s).

Definition Disconnect (request : LeHandleMsg) : Facade rpc_result :=
  s ← get;
  match acl_connections_ s !! uint16 (msg_handle request) with
  | None => mret (Returned (mkStatus INVALID_ARGUMENT "Invalid handle"))
  | Some connection =>
      with_connection connection (connection_Disconnect REMOTE_USER_TERMINATED_CONNECTION);;
      mret (Returned Status_OK)
  end.

Definition FetchIncomingConnection : Facade rpc_result :=
  s ← get;
  if current_connection_request_ s <? N.of_nat (length (per_connection_events_ s))
  then mret (Returned (mkStatus RESOURCE_EXHAUSTED "Only one outstanding connection is supported"))
  else
    emplace_back ("incoming connection " +:+ pretty (current_connection_request_ s));;
    per_connection_RunLoop (current_connection_request_ s).

Definition SendAclData (request : LeAclData) : Facade rpc_result :=
  s ← get;
  match acl_connections_ s !! uint16 (handle request) with
  | None => mret (Returned (mkStatus INVALID_ARGUMENT "Invalid handle"))
  | Some connection =>
      with_connection connection (RegisterEnqueue request);;
      mret WaitingForEnqueue
  end.

(** [acl_connections_[request->handle()]] default-inserts a null pointer
    for a key that is not in the map, which [->] then dereferences. *)
Definition enqueue_packet (request : LeAclData) : Facade BasePacketBuilder :=
  s ← get;
  match acl_connections_ s !! uint16 (handle request) with
  | None => abort NullDereference
  | Some connection =>
      with_connection connection UnregisterEnqueue;;
      mret (RawBuilder (map uint8 (payload request)))
  end.

Definition FetchAclData : Facade rpc_result := mret InFetchLoop.

(** [TryDequeue] gives a null pointer when the receive queue is empty. *)
Definition on_incoming_acl (connection : nat) (handle : N) : Facade unit :=
  s ← get;
  match connections s !! connection with
  | None => abort NullDereference
  | Some c =>
      match rx_queue c with
      | [] => abort NullDereference
      | packet :: rest =>
          with_connection connection (set_rx_queue rest);;
          modify (fun s => set_pending_acl_data
                             (OnIncomingEvent (mkLeAclData handle packet)
                                              (pending_acl_data_ s)) s)
      end
  end.

Definition on_disconnect (connection : nat) (entry : N) (code : ErrorCode)
    : Facade unit :=
  with_connection connection UnregisterDequeue;;
  with_connection connection Finish;;
  let builder := DisconnectBuilder (to_handle entry) code in
  let disconnection := mkLeConnectionEvent (builder_to_string builder) in
  per_connection_OnIncomingEvent entry disconnection.

Definition OnLeConnectSuccess (address_with_type : AddressWithType)
    (connection : LeAclConnection) : Facade unit :=
  let addr := GetAddress address_with_type in
  shared_connection ← make_shared connection;
  s ← get;
  let current := current_connection_request_ s in
  modify (fun s => set_acl_connections
                     (emplace (to_handle current) shared_connection (acl_connections_ s)) s);;
  with_connection shared_connection (RegisterDequeue (to_handle current));;
  with_connection shared_connection (RegisterDisconnectCallback current);;
  with_connection shared_connection RegisterCallbacks;;
  let builder :=
    LeConnectionCompleteBuilder SUCCESS (to_handle current) MASTER
      (GetAddressType address_with_type) addr 1 2 3 PPM_20 in
  let success := mkLeConnectionEvent (builder_to_string builder) in
  per_connection_OnIncomingEvent current success;;
  modify (set_current_connection_request (uint32 (current + 1))).

Definition OnLeConnectFail (address : AddressWithType) (reason : ErrorCode)
    : Facade unit :=
  let builder :=
    LeConnectionCompleteBuilder reason 0 MASTER
      (GetAddressType address) (GetAddress address) 0 0 0 PPM_20 in
  let fail := mkLeConnectionEvent (builder_to_string builder) in
  s ← get;
  per_connection_OnIncomingEvent (current_connection_request_ s) fail;;
  modify (fun s => set_current_connection_request
                     (uint32 (current_connection_request_ s + 1)) s).

(** [OnConnectionUpdate] only logs. *)
Definition OnConnectionUpdate (connection_interval connection_latency
    supervision_timeout : N) : Facade unit := mret tt.

End Service.

(** ** Outgoing requests served one at a time *)

Definition decoded_handle (e : LeConnectionEvent) : option N :=
  match event e with
  | Serialized (LeConnectionCompleteBuilder _ h _ _ _ _ _ _ _) => Some h
  | Serialized _ => None
  end.

(** How the connection manager answers a request: with the
    connect-success callback, handing a connection object over, or with
    the connect-failure callback. *)
Inductive answer :=
| ConnectSuccess (peer : AddressWithType) (connection : LeAclConnection)
| ConnectFail (peer : AddressWithType) (reason : ErrorCode).

Record outgoing := mkOutgoing {
  out_request : LeConnectionMsg;
  out_answer : answer
}.

Definition succeeds (o : outgoing) : Prop :=
  match out_answer o with
  | ConnectSuccess _ _ => True
  | ConnectFail _ _ => False
  end.

Section Serving.

Variable Address_FromString : string -> option Address.

(** The terminal callback of a request. *)
Definition terminal (a : answer) : Facade unit :=
  match a with
  | ConnectSuccess peer connection => OnLeConnectSuccess peer connection
  | ConnectFail peer reason => OnLeConnectFail peer reason
  end.

(** The request is issued, the manager answers it, and the request's
    stream is drained; the value is the handle decoded from the first
    event the stream delivered. *)
Definition serve_outgoing (o : outgoing) : Facade (option N) :=
  r ← CreateConnection Address_FromString (out_request o);
  match r with
  | InRunLoop index =>
      terminal (out_answer o);;
      events ← drain index;
      mret (head events ≫= decoded_handle)
  | _ => mret None
  end.

Fixpoint serve_all (l : list outgoing) : Facade (list (option N)) :=
  match l with
  | [] => mret []
  | o :: l' =>
      h ← serve_outgoing o;
      hs ← serve_all l';
      mret (h :: hs)
  end.

End Serving.

(** An instance of [Address::FromString] for the examples: six groups of
    two hexadecimal digits separated by colons, most significant octet
    first, stored least significant octet first. *)
Definition hex_digit (a : ascii) : option N :=
  let n := N_of_ascii a in
  if (48 <=? n) && (n <=? 57) then Some (n - 48)
  else if (65 <=? n) && (n <=? 70) then Some (n - 55)
  else if (97 <=? n) && (n <=? 102) then Some (n - 87)
  else None.

Fixpoint parse_octets (groups : nat) (s : string) : option (list N) :=
  match groups, s with
  | S groups', String h (String l rest) =>
      hi ← hex_digit h;
      lo ← hex_digit l;
      match rest, groups' with
      | EmptyString, O => Some [16 * hi + lo]
      | String ":" rest', S _ => (fun tl => (16 * hi + lo) :: tl) <$> parse_octets groups' rest'
      | _, _ => None
      end
  | _, _ => None
  end.

Definition parse_address (s : string) : option Address :=
  (fun octets => mkAddress (rev octets)) <$> parse_octets 6 s.

Definition sample_request : LeConnectionMsg :=
  mkLeConnectionMsg "AA:BB:CC:DD:EE:FF" 0.

Definition sample_peer : AddressWithType :=
  mkAddressWithType (mkAddress [0xFF; 0xEE; 0xDD; 0xCC; 0xBB; 0xAA]) 0.

Definition fresh_connection : LeAclConnection :=
  mkLeAclConnection [] [] None None None false [] false.

Definition sample_outgoing : outgoing :=
  mkOutgoing sample_request (ConnectSuccess sample_peer fresh_connection).

Definition sample_failing : outgoing :=
  mkOutgoing sample_request (ConnectFail sample_peer 0x3e).

(** ** Operations and quiescent states

    What can happen to the service: an RPC arrives, a callback bound by
    the service runs, or the listener of a request's stream is written the
    queue's events. A state is quiescent when it is reached from the
    initial state by operations that ran to completion. *)
Inductive operation :=
| CallCreateConnection (request : LeConnectionMsg)
| CallDisconnect (request : LeHandleMsg)
| CallFetchIncomingConnection
| CallSendAclData (request : LeAclData)
| CallFetchAclData
| RunEnqueuePacket (request : LeAclData)
| RunOnIncomingAcl (connection : nat) (handle : N)
| RunOnDisconnect (connection : nat) (entry : N) (code : ErrorCode)
| RunOnLeConnectSuccess (peer : AddressWithType) (connection : LeAclConnection)
| RunOnLeConnectFail (peer : AddressWithType) (reason : ErrorCode)
| RunOnConnectionUpdate (interval latency timeout : N)
| ListenerDrain (index : N).

Section Operations.

Variable Address_FromString : string -> option Address.

Definition perform (op : operation) (s : State) : option State :=
  match op with
  | CallCreateConnection request =>
      final_state (CreateConnection Address_FromString request s)
  | CallDisconnect request => final_state (Disconnect request s)
  | CallFetchIncomingConnection => final_state (FetchIncomingConnection s)
  | CallSendAclData request => final_state (SendAclData request s)
  | CallFetchAclData => final_state (FetchAclData s)
  | RunEnqueuePacket request => final_state (enqueue_packet request s)
  | RunOnIncomingAcl connection handle =>
      final_state (on_incoming_acl connection handle s)
  | RunOnDisconnect connection entry code =>
      final_state (on_disconnect connection entry code s)
  | RunOnLeConnectSuccess peer connection =>
      final_state (OnLeConnectSuccess peer connection s)
  | RunOnLeConnectFail peer reason => final_state (OnLeConnectFail peer reason s)
  | RunOnConnectionUpdate interval latency timeout =>
      final_state (OnConnectionUpdate interval latency timeout s)
  | ListenerDrain index => final_state (drain index s)
  end.

Inductive quiescent : State -> Prop :=
| quiescent_initial : quiescent initial_state
| quiescent_step op s s' :
    quiescent s -> perform op s = Some s' -> quiescent s'.

End Operations.

(** The number of channels in the Request Event Log, as the 64-bit
    [size()] of the vector. *)
Definition log_size (s : State) : N := N.of_nat (length (per_connection_events_ s)).

(** The Request Event Log holds one channel per completed request, and
    one more while a request is outstanding. *)
Definition slot_invariant (s : State) : Prop :=
  log_size s = current_connection_request_ s \/
  log_size s = current_connection_request_ s + 1.

(** How one completed operation can move the Request Event Log and the
    sequence number: not at all, by admitting a request, or by completing
    the outstanding one. *)
Inductive log_step (s s' : State) : Prop :=
| log_kept :
    log_size s' = log_size s ->
    current_connection_request_ s' = current_connection_request_ s ->
    log_step s s'
| log_accepted :
    log_size s = current_connection_request_ s ->
    log_size s' = log_size s + 1 ->
    current_connection_request_ s' = current_connection_request_ s ->
    log_step s s'
| log_completed :
    current_connection_request_ s < log_size s ->
    log_size s' = log_size s ->
    current_connection_request_ s' = uint32 (current_connection_request_ s + 1) ->
    log_step s s'.

(** The admission check of [CreateConnection] and
    [FetchIncomingConnection], which differ in the rejection's message and
    the new queue's name only. *)
Definition admission (message prefix : string) : Facade rpc_result :=
  s ← get;
  if current_connection_request_ s <? N.of_nat (length (per_connection_events_ s))
  then mret (Returned (mkStatus RESOURCE_EXHAUSTED message))
  else
    emplace_back (prefix +:+ pretty (current_connection_request_ s));;
    per_connection_RunLoop (current_connection_request_ s).

(** States reached by serving [n] copies of the sample request. *)
Definition served (n : nat) : outcome (list (option N)) :=
  serve_all parse_address (replicate n sample_outgoing) initial_state.

(** The statuses the service rejects a call with. *)
Definition rejection : Status :=
  mkStatus RESOURCE_EXHAUSTED "Only one outstanding request is supported".

Definition invalid_handle : Status := mkStatus INVALID_ARGUMENT "Invalid handle".

(** A request whose address string [Address::FromString] accepts. *)
Definition well_formed (F : string -> option Address) (o : outgoing) : Prop :=
  is_Some (F (address (out_request o))).

(** The peer [CreateConnection] asks the manager to connect to. *)
Definition peer_of (peer_address : Address) (request : LeConnectionMsg) :=
  mkAddressWithType peer_address (uint8 (address_type request)).

(** The events the service builds. *)
Definition success_event (seq : N) (peer : AddressWithType) : LeConnectionEvent :=
  mkLeConnectionEvent (builder_to_string
    (LeConnectionCompleteBuilder SUCCESS (to_handle seq) MASTER
       (GetAddressType peer) (GetAddress peer) 1 2 3 PPM_20)).

Definition fail_event (peer : AddressWithType) (reason : ErrorCode) : LeConnectionEvent :=
  mkLeConnectionEvent (builder_to_string
    (LeConnectionCompleteBuilder reason 0 MASTER
       (GetAddressType peer) (GetAddress peer) 0 0 0 PPM_20)).

Definition disconnect_event (seq : N) (code : ErrorCode) : LeConnectionEvent :=
  mkLeConnectionEvent (builder_to_string (DisconnectBuilder (to_handle seq) code)).

(** The connection object as [OnLeConnectSuccess] leaves it. *)
Definition registered (seq : N) (connection : LeAclConnection) : LeAclConnection :=
  RegisterCallbacks
    (RegisterDisconnectCallback seq (RegisterDequeue (to_handle seq) connection)).

(** The handle field of the event that answers request number [seq], and
    the service's state once the request is served: its channel is the
    last of the log, empty again after the drain. *)
Definition answered_handle (seq : N) (a : answer) : N :=
  match a with
  | ConnectSuccess _ _ => to_handle seq
  | ConnectFail _ _ => 0
  end.

Definition after_serving (peer : AddressWithType) (a : answer) (s : State) : State :=
  let seq := current_connection_request_ s in
  let log := per_connection_events_ s ++
               [new_queue ("connection attempt " +:+ pretty seq)] in
  match a with
  | ConnectSuccess _ connection =>
      mkState (acl_manager_calls s ++ [peer])
        (connections s ++ [registered seq connection])
        (emplace (to_handle seq) (length (connections s)) (acl_connections_ s))
        (pending_acl_data_ s) log (uint32 (seq + 1))
  | ConnectFail _ _ =>
      mkState (acl_manager_calls s ++ [peer]) (connections s) (acl_connections_ s)
        (pending_acl_data_ s) log (uint32 (seq + 1))
  end.

(** The state after the first sample request was served and the second
    admitted: one connection, and request number 1 outstanding. *)
Definition one_outstanding : State :=
  mkState [sample_peer; sample_peer] [registered 0 fresh_connection]
    {[ 0x10 := 0%nat ]} (new_queue "FetchAclData")
    [new_queue "connection attempt 0"; new_queue "connection attempt 1"] 1.

(** ** The rest of the service: teardown and data relay *)

(** The registry's entries in the order a [std::map] iterates them:
    ascending keys. *)
Definition key_le (x y : N * nat) : Prop := x.1 <= y.1.

Global Instance key_le_dec x y : Decision (key_le x y).
Proof. unfold key_le. apply _. Defined.

Definition registry_entries (m : gmap N nat) : list (N * nat) :=
  merge_sort key_le (map_to_list m).

(** [~LeAclManagerFacadeService]: every connection the registry holds
    has its dequeue callback unregistered. *)
Definition destructor : Facade unit :=
  s ← get;
  foldr (fun connection rest =>
           with_connection connection.2 UnregisterDequeue;; rest)
        (mret tt) (registry_entries (acl_connections_ s)).

(** [on_incoming_acl] run once for each of [n] dequeue notifications. *)
Fixpoint on_incoming_acl_times (n : nat) (connection : nat) (handle : N)
    : Facade unit :=
  match n with
  | O => mret tt
  | S n' =>
      on_incoming_acl connection handle;;
      on_incoming_acl_times n' connection handle
  end.

(** ** How operations move the connections and the registry *)

(** What a call on a connection can change of its callbacks: the bound
    disconnect entry and the management callbacks stay, the dequeue
    callback stays or is unregistered. *)
Definition evolves (c c' : LeAclConnection) : Prop :=
  disconnect_callback c' = disconnect_callback c /\
  management_callbacks c' = management_callbacks c /\
  (dequeue_callback c' = dequeue_callback c \/ dequeue_callback c' = None).

(** The calls the service makes on a connection outside of
    [OnLeConnectSuccess]. *)
Definition benign (f : LeAclConnection -> LeAclConnection) : Prop :=
  forall c, evolves c (f c).

Inductive heap_step (s s' : State) : Prop :=
| heap_evolves :
    acl_connections_ s' = acl_connections_ s ->
    Forall2 evolves (connections s) (connections s') ->
    heap_step s s'
| heap_connected connection :
    current_connection_request_ s < log_size s ->
    acl_connections_ s' =
      emplace (to_handle (current_connection_request_ s))
              (length (connections s)) (acl_connections_ s) ->
    connections s' =
      connections s ++ [registered (current_connection_request_ s) connection] ->
    current_connection_request_ s' = uint32 (current_connection_request_ s + 1) ->
    heap_step s s'.

(** Every connection carries the callbacks [OnLeConnectSuccess] bound,
    for a request whose channel is in the log; and every registry entry
    leads to a connection of the request its handle was allocated for. *)
Definition connection_sound (s : State) (c : LeAclConnection) : Prop :=
  exists entry,
    disconnect_callback c = Some entry /\
    entry < log_size s /\
    management_callbacks c = true /\
    (dequeue_callback c = Some (to_handle entry) \/ dequeue_callback c = None).

Definition facade_sound (s : State) : Prop :=
  (forall i c, connections s !! i = Some c -> connection_sound s c) /\
  (forall h i, acl_connections_ s !! h = Some i ->
     exists c entry,
       connections s !! i = Some c /\
       disconnect_callback c = Some entry /\
       to_handle entry = h).

(** No bound entry is ahead of the sequence number. *)
Definition entries_below (s : State) : Prop :=
  forall i c entry,
    connections s !! i = Some c -> disconnect_callback c = Some entry ->
    entry < current_connection_request_ s.

(** A connection that holds three received packets, and a state in which
    it is the registered connection of request number 0. *)
Definition receiving_connection : LeAclConnection :=
  mkLeAclConnection [] [[1; 2]; [3]; [4; 5; 6]] None None None false [] false.

Definition one_receiving : State :=
  mkState [sample_peer] [registered 0 receiving_connection] {[ 0x10 := 0%nat ]}
    (new_queue "FetchAclData") [new_queue "connection attempt 0"] 1.

(** The state a connect-failure callback with reason [0x3e] leaves. *)
Definition after_failure (s : State) : State :=
  match OnLeConnectFail sample_peer 0x3e s with
  | Done _ s' => s'
  | Abort _ => s
  end.

(** The state after the first sample request was answered by the
    connect-failure callback and its stream left undrained: the failure
    event is still in the request's channel. *)
Definition one_undelivered : State :=
  mkState [sample_peer] [] ∅ (new_queue "FetchAclData")
    [mkGrpcEventQueue "connection attempt 0" [fail_event sample_peer 0x3e]] 1.

(** * Properties *)

Ltac facade :=
  unfold mbind, Facade_bind, mret, Facade_ret, get, modify, abort; cbn.

(** ** Fixed-width arithmetic and the handle allocator *)

Lemma uint32_small n : n < 2 ^ 32 -> uint32 n = n.
Proof. apply N.mod_small. Qed.

Lemma to_handle_eq n : to_handle n = ((n + 0x10) mod 2 ^ 32) mod 0xe00.
Proof.
  unfold to_handle, uint16, uint32.
  apply N.mod_small.
  pose proof (N.mod_upper_bound ((n + 0x10) mod 2 ^ 32) 0xe00).
  lia.
Qed.

Lemma to_handle_lt n : to_handle n < 0xe00.
Proof. rewrite to_handle_eq. apply N.mod_upper_bound. lia. Qed.

Lemma to_handle_in_range n :
  n + 0x10 < 2 ^ 32 -> to_handle n = (n + 0x10) mod 0xe00.
Proof. intros H. rewrite to_handle_eq. by rewrite (N.mod_small _ (2 ^ 32)). Qed.

(** ** The registry's [emplace] *)

Lemma emplace_present key connection (m : gmap N nat) :
  is_Some (m !! key) -> emplace key connection m = m.
Proof. intros [c Hc]. unfold emplace. by rewrite Hc. Qed.

Lemma emplace_absent key connection (m : gmap N nat) :
  m !! key = None -> emplace key connection m = <[key := connection]> m.
Proof. intros Hk. unfold emplace. by rewrite Hk. Qed.

Lemma emplace_lookup_new key connection (m : gmap N nat) :
  m !! key = None -> emplace key connection m !! key = Some connection.
Proof. intros Hk. rewrite emplace_absent by done. apply lookup_insert_eq. Qed.

Lemma emplace_lookup_kept key connection (m : gmap N nat) h c :
  m !! h = Some c -> emplace key connection m !! h = Some c.
Proof.
  intros Hh. destruct (m !! key) as [c'|] eqn:E.
  - by rewrite emplace_present.
  - rewrite emplace_absent, lookup_insert_ne; [done| |done]. intros ->. congruence.
Qed.

(** ** The Request Event Log as a vector *)

Lemma log_size_index s :
  log_size s = current_connection_request_ s ->
  N.to_nat (current_connection_request_ s) = length (per_connection_events_ s).
Proof. unfold log_size. lia. Qed.

Lemma log_size_insert s i q :
  N.of_nat (length (<[i := q]> (per_connection_events_ s))) = log_size s.
Proof. unfold log_size. by rewrite length_insert. Qed.

Lemma log_size_emplace_back l q v :
  log_size (set_per_connection_events (l ++ [q]) v) = N.of_nat (length l) + 1.
Proof. unfold log_size. cbn. rewrite length_app. cbn. lia. Qed.

Lemma lookup_log s index :
  index < log_size s -> is_Some (per_connection_events_ s !! N.to_nat index).
Proof. unfold log_size. intros H. apply lookup_lt_is_Some. lia. Qed.

Lemma lookup_log_None s index :
  log_size s <= index -> per_connection_events_ s !! N.to_nat index = None.
Proof. unfold log_size. intros H. apply lookup_ge_None. lia. Qed.

Lemma lookup_log_Some s index q :
  per_connection_events_ s !! N.to_nat index = Some q -> index < log_size s.
Proof. intros H. apply lookup_lt_Some in H. unfold log_size. lia. Qed.

(** ** Connections behind shared pointers *)

Lemma with_connection_last l c f s :
  connections s = l ++ [c] ->
  with_connection (length l) f s = Done tt (set_connections (l ++ [f c]) s).
Proof.
  intros E. unfold with_connection. rewrite E.
  rewrite list_lookup_middle by done.
  rewrite insert_app_r_alt by done.
  by rewrite Nat.sub_diag.
Qed.

(** A call on a connection touches nothing but the connection. *)
Lemma with_connection_frame connection f s s' :
  with_connection connection f s = Done tt s' ->
  per_connection_events_ s' = per_connection_events_ s /\
  current_connection_request_ s' = current_connection_request_ s /\
  acl_connections_ s' = acl_connections_ s /\
  pending_acl_data_ s' = pending_acl_data_ s /\
  acl_manager_calls s' = acl_manager_calls s.
Proof.
  unfold with_connection. destruct (connections s !! connection); [|done].
  by intros [= <-].
Qed.

Lemma with_connection_log_step connection f s s' :
  with_connection connection f s = Done tt s' -> log_step s s'.
Proof.
  intros H. apply with_connection_frame in H as (E1 & E2 & _).
  apply log_kept; [unfold log_size; by rewrite E1|done].
Qed.

(** ** The callbacks of the connection manager *)

Lemma OnLeConnectSuccess_run peer connection s q :
  per_connection_events_ s !! N.to_nat (current_connection_request_ s) = Some q ->
  OnLeConnectSuccess peer connection s =
    Done tt
      (mkState (acl_manager_calls s)
         (connections s ++ [registered (current_connection_request_ s) connection])
         (emplace (to_handle (current_connection_request_ s))
                  (length (connections s)) (acl_connections_ s))
         (pending_acl_data_ s)
         (<[N.to_nat (current_connection_request_ s) :=
              OnIncomingEvent (success_event (current_connection_request_ s) peer) q]>
            (per_connection_events_ s))
         (uint32 (current_connection_request_ s + 1))).
Proof.
  intros Hq. unfold OnLeConnectSuccess, make_shared. facade.
  do 3 (erewrite with_connection_last by reflexivity; cbn).
  unfold per_connection_OnIncomingEvent. cbn. rewrite Hq. reflexivity.
Qed.

Lemma OnLeConnectSuccess_abort peer connection s :
  per_connection_events_ s !! N.to_nat (current_connection_request_ s) = None ->
  OnLeConnectSuccess peer connection s = Abort IndexOutOfRange.
Proof.
  intros Hq. unfold OnLeConnectSuccess, make_shared. facade.
  do 3 (erewrite with_connection_last by reflexivity; cbn).
  unfold per_connection_OnIncomingEvent. cbn. rewrite Hq. reflexivity.
Qed.

Lemma OnLeConnectFail_run peer reason s q :
  per_connection_events_ s !! N.to_nat (current_connection_request_ s) = Some q ->
  OnLeConnectFail peer reason s =
    Done tt
      (mkState (acl_manager_calls s) (connections s) (acl_connections_ s)
         (pending_acl_data_ s)
         (<[N.to_nat (current_connection_request_ s) :=
              OnIncomingEvent (fail_event peer reason) q]>
            (per_connection_events_ s))
         (uint32 (current_connection_request_ s + 1))).
Proof.
  intros Hq. unfold OnLeConnectFail, per_connection_OnIncomingEvent. facade.
  rewrite Hq. reflexivity.
Qed.

Lemma OnLeConnectFail_abort peer reason s :
  per_connection_events_ s !! N.to_nat (current_connection_request_ s) = None ->
  OnLeConnectFail peer reason s = Abort IndexOutOfRange.
Proof.
  intros Hq. unfold OnLeConnectFail, per_connection_OnIncomingEvent. facade.
  rewrite Hq. reflexivity.
Qed.

(** A terminal callback that completes had a request outstanding, keeps
    the log's length and increments the sequence number. *)
Lemma OnLeConnectSuccess_completes peer connection s s' :
  OnLeConnectSuccess peer connection s = Done tt s' ->
  current_connection_request_ s < log_size s /\
  log_size s' = log_size s /\
  current_connection_request_ s' = uint32 (current_connection_request_ s + 1).
Proof.
  destruct (per_connection_events_ s !! N.to_nat (current_connection_request_ s))
    as [q|] eqn:E.
  - rewrite (OnLeConnectSuccess_run _ _ _ _ E). intros [= <-].
    split; [by eapply lookup_log_Some|]. split; [|done]. apply log_size_insert.
  - by rewrite (OnLeConnectSuccess_abort _ _ _ E).
Qed.

Lemma OnLeConnectFail_completes peer reason s s' :
  OnLeConnectFail peer reason s = Done tt s' ->
  current_connection_request_ s < log_size s /\
  log_size s' = log_size s /\
  current_connection_request_ s' = uint32 (current_connection_request_ s + 1).
Proof.
  destruct (per_connection_events_ s !! N.to_nat (current_connection_request_ s))
    as [q|] eqn:E.
  - rewrite (OnLeConnectFail_run _ _ _ _ E). intros [= <-].
    split; [by eapply lookup_log_Some|]. split; [|done]. apply log_size_insert.
  - by rewrite (OnLeConnectFail_abort _ _ _ E).
Qed.

(** ** The callbacks bound to a connection *)

Lemma registered_callbacks seq connection :
  dequeue_callback (registered seq connection) = Some (to_handle seq) /\
  disconnect_callback (registered seq connection) = Some seq /\
  management_callbacks (registered seq connection) = true.
Proof. done. Qed.

Lemma on_disconnect_run connection entry code s c q :
  connections s !! connection = Some c ->
  per_connection_events_ s !! N.to_nat entry = Some q ->
  on_disconnect connection entry code s =
    Done tt
      (mkState (acl_manager_calls s)
         (<[connection := Finish (UnregisterDequeue c)]> (connections s))
         (acl_connections_ s) (pending_acl_data_ s)
         (<[N.to_nat entry := OnIncomingEvent (disconnect_event entry code) q]>
            (per_connection_events_ s))
         (current_connection_request_ s)).
Proof.
  intros Hc Hq. unfold on_disconnect, with_connection, per_connection_OnIncomingEvent.
  facade. rewrite Hc. cbn.
  rewrite list_lookup_insert_eq by (by eapply lookup_lt_Some).
  cbn. rewrite Hq. rewrite list_insert_insert_eq. reflexivity.
Qed.

Lemma on_disconnect_abort connection entry code s c :
  connections s !! connection = Some c ->
  per_connection_events_ s !! N.to_nat entry = None ->
  on_disconnect connection entry code s = Abort IndexOutOfRange.
Proof.
  intros Hc Hq. unfold on_disconnect, with_connection, per_connection_OnIncomingEvent.
  facade. rewrite Hc. cbn.
  rewrite list_lookup_insert_eq by (by eapply lookup_lt_Some).
  cbn. rewrite Hq. reflexivity.
Qed.

(** ** The admission check *)

Lemma admission_rejected message prefix s :
  current_connection_request_ s < log_size s ->
  admission message prefix s = Done (Returned (mkStatus RESOURCE_EXHAUSTED message)) s.
Proof.
  intros Hlt. unfold admission. facade.
  apply N.ltb_lt in Hlt. unfold log_size in Hlt. by rewrite Hlt.
Qed.

Lemma admission_accepted message prefix s :
  log_size s = current_connection_request_ s ->
  admission message prefix s =
    Done (InRunLoop (current_connection_request_ s))
      (set_per_connection_events
         (per_connection_events_ s ++
            [new_queue (prefix +:+ pretty (current_connection_request_ s))]) s).
Proof.
  intros Heq. unfold admission. facade.
  replace (_ <? _) with false
    by (symmetry; apply N.ltb_ge; unfold log_size in Heq; lia).
  unfold emplace_back, per_connection_RunLoop. facade.
  rewrite (log_size_index _ Heq), list_lookup_middle by done.
  reflexivity.
Qed.

(** The call enters the event loop only through the second branch. *)
Lemma admission_InRunLoop message prefix s index s' :
  admission message prefix s = Done (InRunLoop index) s' ->
  log_size s = current_connection_request_ s /\
  index = current_connection_request_ s /\
  s' = set_per_connection_events
         (per_connection_events_ s ++
            [new_queue (prefix +:+ pretty (current_connection_request_ s))]) s.
Proof.
  unfold admission. facade. destruct (_ <? _) eqn:E; [done|].
  unfold emplace_back, per_connection_RunLoop. facade.
  destruct (_ !! _) eqn:El; [|done]. intros [= <- <-].
  apply N.ltb_ge in E. apply lookup_lt_Some in El.
  rewrite length_app in El. cbn in El.
  repeat split. unfold log_size. lia.
Qed.

Lemma admission_Done message prefix s r s' :
  admission message prefix s = Done r s' ->
  (s' = s /\ current_connection_request_ s < log_size s) \/
  (exists index, r = InRunLoop index /\
                 admission message prefix s = Done (InRunLoop index) s').
Proof.
  intros H.
  destruct (N.ltb_spec (current_connection_request_ s) (log_size s)) as [Hlt|Hge].
  - left. rewrite admission_rejected in H by done. by injection H as _ <-.
  - right. revert H. unfold admission. facade.
    replace (_ <? _) with false
      by (symmetry; apply N.ltb_ge; unfold log_size in Hge; lia).
    unfold emplace_back, per_connection_RunLoop. facade.
    destruct (_ !! _); [|done]. intros [= <- <-]. by eexists.
Qed.

Lemma admission_calls message prefix s r s' :
  admission message prefix s = Done r s' ->
  acl_manager_calls s' = acl_manager_calls s.
Proof.
  intros H. destruct (admission_Done _ _ _ _ _ H) as [[-> _]|(index & -> & H')]; [done|].
  by apply admission_InRunLoop in H' as (_ & _ & ->).
Qed.

Lemma admission_log_step message prefix s r s' :
  admission message prefix s = Done r s' -> log_step s s'.
Proof.
  intros H. destruct (admission_Done _ _ _ _ _ H) as [[-> _]|(index & -> & H')].
  - by apply log_kept.
  - apply admission_InRunLoop in H' as (Heq & _ & ->).
    apply log_accepted; [done| |done]. apply log_size_emplace_back.
Qed.

Lemma FetchIncomingConnection_admission :
  FetchIncomingConnection =
    admission "Only one outstanding connection is supported" "incoming connection ".
Proof. reflexivity. Qed.

Lemma FetchIncomingConnection_InRunLoop s index s' :
  FetchIncomingConnection s = Done (InRunLoop index) s' ->
  log_size s = current_connection_request_ s /\
  log_size s' = log_size s + 1 /\
  current_connection_request_ s' = current_connection_request_ s.
Proof.
  rewrite FetchIncomingConnection_admission.
  intros H. apply admission_InRunLoop in H as (H1 & _ & ->).
  split; [exact H1|]. split; [apply log_size_emplace_back|done].
Qed.

Section Requests.

Variable F : string -> option Address.

Lemma CreateConnection_malformed request s :
  F (address request) = None ->
  CreateConnection F request s = Abort AssertFailed.
Proof. intros HF. unfold CreateConnection. rewrite HF. reflexivity. Qed.

Lemma CreateConnection_admission request peer_address :
  F (address request) = Some peer_address ->
  CreateConnection F request =
    (CreateLeConnection (peer_of peer_address request);;
     admission "Only one outstanding request is supported" "connection attempt ").
Proof. intros HF. unfold CreateConnection. rewrite HF. reflexivity. Qed.

Lemma CreateConnection_rejected request peer_address s :
  F (address request) = Some peer_address ->
  current_connection_request_ s < log_size s ->
  CreateConnection F request s =
    Done (Returned rejection)
         (set_acl_manager_calls
            (acl_manager_calls s ++ [peer_of peer_address request]) s).
Proof.
  intros HF Hlt. rewrite (CreateConnection_admission _ _ HF). facade.
  by rewrite admission_rejected.
Qed.

Lemma CreateConnection_accepted request peer_address s :
  F (address request) = Some peer_address ->
  log_size s = current_connection_request_ s ->
  CreateConnection F request s =
    Done (InRunLoop (current_connection_request_ s))
      (mkState (acl_manager_calls s ++ [peer_of peer_address request])
         (connections s) (acl_connections_ s) (pending_acl_data_ s)
         (per_connection_events_ s ++
            [new_queue ("connection attempt " +:+ pretty (current_connection_request_ s))])
         (current_connection_request_ s)).
Proof.
  intros HF Heq. rewrite (CreateConnection_admission _ _ HF). facade.
  by rewrite admission_accepted.
Qed.

Lemma CreateConnection_InRunLoop request s index s' :
  CreateConnection F request s = Done (InRunLoop index) s' ->
  log_size s = current_connection_request_ s /\
  log_size s' = log_size s + 1 /\
  current_connection_request_ s' = current_connection_request_ s.
Proof.
  destruct (F (address request)) as [a|] eqn:HF.
  - rewrite (CreateConnection_admission _ _ HF). facade.
    intros H. apply admission_InRunLoop in H as (H1 & _ & ->).
    split; [exact H1|]. split; [by rewrite log_size_emplace_back|done].
  - by rewrite CreateConnection_malformed.
Qed.

Lemma CreateConnection_log_step request s r s' :
  CreateConnection F request s = Done r s' -> log_step s s'.
Proof.
  destruct (F (address request)) as [a|] eqn:HF.
  - rewrite (CreateConnection_admission _ _ HF). facade.
    intros H. apply admission_log_step in H.
    destruct H as [E1 E2|E0 E1 E2|Hlt E1 E2];
      [apply log_kept|apply log_accepted|apply log_completed]; done.
  - by rewrite CreateConnection_malformed.
Qed.

End Requests.

(** ** Requests served one at a time *)

Lemma drain_run index s q :
  per_connection_events_ s !! N.to_nat index = Some q ->
  drain index s =
    Done (pending_events q)
      (set_per_connection_events
         (<[N.to_nat index := mkGrpcEventQueue (log_name q) []]> (per_connection_events_ s)) s).
Proof. intros Hq. unfold drain. rewrite Hq. reflexivity. Qed.

Section Serving.

Variable F : string -> option Address.

(** Serving one request when none is outstanding: the handle delivered is
    that of the current sequence number when the manager reports success
    and 0 when it reports failure, the request's channel is left empty at
    the end of the log, and the sequence number is incremented. *)
Lemma serve_outgoing_run o peer_address s :
  F (address (out_request o)) = Some peer_address ->
  log_size s = current_connection_request_ s ->
  serve_outgoing F o s =
    Done (Some (answered_handle (current_connection_request_ s) (out_answer o)))
         (after_serving (peer_of peer_address (out_request o)) (out_answer o) s).
Proof.
  intros HF Heq. unfold serve_outgoing.
  unfold mbind at 1. unfold Facade_bind.
  rewrite (CreateConnection_accepted F _ _ _ HF Heq).
  pose proof (log_size_index _ Heq) as Hi.
  unfold mbind at 1. unfold Facade_bind.
  destruct (out_answer o) as [peer connection|peer reason]; cbn [terminal].
  - erewrite OnLeConnectSuccess_run
      by (cbn; rewrite Hi; apply list_lookup_middle; reflexivity).
    cbn. unfold mbind at 1. unfold Facade_bind.
    erewrite drain_run
      by (cbn; rewrite Hi, insert_app_r_alt, Nat.sub_diag by done; cbn;
          apply list_lookup_middle; reflexivity).
    cbn. rewrite Hi.
    rewrite list_insert_insert_eq, insert_app_r_alt, Nat.sub_diag by done.
    reflexivity.
  - erewrite OnLeConnectFail_run
      by (cbn; rewrite Hi; apply list_lookup_middle; reflexivity).
    cbn. unfold mbind at 1. unfold Facade_bind.
    erewrite drain_run
      by (cbn; rewrite Hi, insert_app_r_alt, Nat.sub_diag by done; cbn;
          apply list_lookup_middle; reflexivity).
    cbn. rewrite Hi.
    rewrite list_insert_insert_eq, insert_app_r_alt, Nat.sub_diag by done.
    reflexivity.
Qed.

Lemma after_serving_log peer a s :
  log_size (after_serving peer a s) = log_size s + 1 /\
  current_connection_request_ (after_serving peer a s)
  = uint32 (current_connection_request_ s + 1).
Proof.
  unfold log_size. destruct a; cbn; rewrite length_app; cbn; split; (lia || done).
Qed.

Lemma after_serving_registry peer a s h c :
  acl_connections_ s !! h = Some c ->
  acl_connections_ (after_serving peer a s) !! h = Some c.
Proof. destruct a; cbn; [apply emplace_lookup_kept|done]. Qed.

Lemma serve_outgoing_quiescent o s h s' :
  quiescent F s -> serve_outgoing F o s = Done h s' -> quiescent F s'.
Proof.
  intros Hs. unfold serve_outgoing.
  unfold mbind at 1. unfold Facade_bind.
  destruct (CreateConnection F (out_request o) s) as [r s1|] eqn:E1; [|done].
  assert (quiescent F s1) as H1.
  { apply (quiescent_step F (CallCreateConnection (out_request o)) s); [done|].
    cbn. by rewrite E1. }
  destruct r; try (intros [= <- <-]; done).
  unfold mbind at 1. unfold Facade_bind.
  destruct (terminal (out_answer o) s1) as [[] s2|] eqn:E2; [|done].
  assert (quiescent F s2) as H2.
  { destruct (out_answer o) as [peer connection|peer reason]; cbn [terminal] in E2.
    - apply (quiescent_step F (RunOnLeConnectSuccess peer connection) s1); [done|].
      cbn. by rewrite E2.
    - apply (quiescent_step F (RunOnLeConnectFail peer reason) s1); [done|].
      cbn. by rewrite E2. }
  unfold mbind at 1. unfold Facade_bind.
  destruct (drain index s2) as [evs s3|] eqn:E3; [|done].
  intros [= <- <-].
  apply (quiescent_step F (ListenerDrain index) s2); [done|].
  cbn. by rewrite E3.
Qed.

(** Serving a list of requests from a state with no request outstanding,
    as long as the log stays within [2 ^ 32] channels. *)
Lemma serve_all_run l : forall s,
  Forall (well_formed F) l ->
  current_connection_request_ s = uint32 (log_size s) ->
  log_size s + N.of_nat (length l) <= 2 ^ 32 ->
  exists hs s',
    serve_all F l s = Done hs s' /\
    length hs = length l /\
    (forall i o, l !! i = Some o ->
       hs !! i = Some (Some (answered_handle (log_size s + N.of_nat i) (out_answer o)))) /\
    log_size s' = log_size s + N.of_nat (length l) /\
    current_connection_request_ s' = uint32 (log_size s') /\
    (quiescent F s -> quiescent F s') /\
    (forall h c, acl_connections_ s !! h = Some c -> acl_connections_ s' !! h = Some c) /\
    (Forall succeeds l ->
     length (connections s') = (length (connections s) + length l)%nat /\
     (l <> [] -> acl_connections_ s !! to_handle (log_size s) = None ->
      acl_connections_ s' !! to_handle (log_size s) = Some (length (connections s)))).
Proof.
  induction l as [|o l IH]; intros s Hwf Hcur Hlen.
  - exists [], s. cbn [serve_all length]. repeat split; try done; try lia.
  - apply Forall_cons in Hwf as [[a Ha] Hwf].
    cbn [length] in Hlen.
    assert (current_connection_request_ s = log_size s) as Hcur'.
    { rewrite Hcur. apply uint32_small. lia. }
    pose proof (serve_outgoing_run o a s Ha (eq_sym Hcur')) as Hrun.
    set (s1 := after_serving _ _ s) in Hrun.
    destruct (after_serving_log (peer_of a (out_request o)) (out_answer o) s)
      as [Hsize1 Hcur1]. fold s1 in Hsize1, Hcur1.
    destruct (IH s1)
      as (hs & s' & Hall & Hlenhs & Hhs & Hsize & Hcurs' & Hq & Hkept & Hsucc);
      [done| | |].
    { by rewrite Hcur1, Hsize1, Hcur'. }
    { rewrite Hsize1. lia. }
    exists (Some (answered_handle (log_size s) (out_answer o)) :: hs), s'.
    cbn [serve_all]. unfold mbind at 1. unfold Facade_bind.
    rewrite Hrun. unfold mbind at 1. unfold Facade_bind. rewrite Hall.
    split; [by rewrite Hcur'|]. split; [cbn; by rewrite Hlenhs|].
    split; [|split; [|split; [|split; [|split]]]].
    + intros [|i] o' Hi.
      * injection Hi as <-. cbn. by rewrite N.add_0_r.
      * cbn in Hi. change ((?x :: hs) !! S i) with (hs !! i).
        rewrite (Hhs _ _ Hi), Hsize1. do 3 f_equal. lia.
    + rewrite Hsize, Hsize1. cbn [length]. lia.
    + done.
    + intros Hqs. apply Hq. eapply serve_outgoing_quiescent; done.
    + intros h c Hh. apply Hkept. by apply after_serving_registry.
    + intros Hall_succeed. apply Forall_cons in Hall_succeed as [Ho Hl].
      destruct (Hsucc Hl) as [Hconns _].
      unfold succeeds in Ho. unfold s1, after_serving in Hconns, Hkept.
      destruct (out_answer o) as [peer connection|]; [|done].
      cbn in Hconns, Hkept. split.
      * rewrite Hconns, length_app. cbn. lia.
      * intros _ Hnone. apply Hkept. rewrite Hcur'. by apply emplace_lookup_new.
Qed.

End Serving.

(** ** Operations and the slot invariant *)

Create HintDb log_steps.
#[local] Hint Resolve with_connection_log_step admission_log_step
  CreateConnection_log_step : log_steps.
#[local] Hint Constructors log_step : log_steps.

Section Steps.

Variable F : string -> option Address.

(** Splits a computation's first connection call off, keeping its frame. *)
Ltac connection_call s1 E :=
  match goal with
  | |- context [with_connection ?c ?f ?s] =>
      destruct (with_connection c f s) as [[] s1|] eqn:E; [|done];
      apply with_connection_frame in E as (? & ? & _)
  end.

Lemma perform_log_step op s s' : perform F op s = Some s' -> log_step s s'.
Proof.
  destruct op; cbn [perform].
  - destruct (CreateConnection F request s) eqn:E; [|done].
    intros [= <-]. eauto with log_steps.
  - unfold Disconnect. facade. destruct (_ !! _); [|intros [= <-]; auto with log_steps].
    connection_call s1 E. intros [= <-].
    apply log_kept; [unfold log_size; congruence|done].
  - rewrite FetchIncomingConnection_admission.
    destruct (admission _ _ s) eqn:E; [|done].
    intros [= <-]. eauto with log_steps.
  - unfold SendAclData. facade. destruct (_ !! _); [|intros [= <-]; auto with log_steps].
    connection_call s1 E. intros [= <-].
    apply log_kept; [unfold log_size; congruence|done].
  - intros [= <-]. auto with log_steps.
  - unfold enqueue_packet. facade. destruct (_ !! _); [|done].
    connection_call s1 E. intros [= <-].
    apply log_kept; [unfold log_size; congruence|done].
  - unfold on_incoming_acl. facade. destruct (connections s !! connection); [|done].
    destruct (rx_queue _); [done|]. facade.
    connection_call s1 E. intros [= <-].
    apply log_kept; [unfold log_size; cbn; congruence|done].
  - unfold on_disconnect. facade.
    connection_call s1 E1. connection_call s2 E2.
    unfold per_connection_OnIncomingEvent. destruct (_ !! _); [|done].
    intros [= <-]. apply log_kept; cbn; [|congruence].
    unfold log_size. cbn. rewrite length_insert. congruence.
  - destruct (OnLeConnectSuccess peer connection s) as [[] s1|] eqn:E; [|done].
    intros [= <-]. apply OnLeConnectSuccess_completes in E as (? & ? & ?).
    by apply log_completed.
  - destruct (OnLeConnectFail peer reason s) as [[] s1|] eqn:E; [|done].
    intros [= <-]. apply OnLeConnectFail_completes in E as (? & ? & ?).
    by apply log_completed.
  - intros [= <-]. auto with log_steps.
  - unfold drain. destruct (_ !! _); [|done]. intros [= <-].
    apply log_kept; [apply log_size_insert|done].
Qed.

End Steps.

Lemma log_step_grows s s' : log_step s s' -> log_size s <= log_size s'.
Proof. intros [E1 E2|E0 E1 E2|Hlt E1 E2]; lia. Qed.

Lemma log_step_invariant s s' :
  log_step s s' -> log_size s' < 2 ^ 32 -> slot_invariant s -> slot_invariant s'.
Proof.
  unfold slot_invariant. intros [E1 E2|E0 E1 E2|Hlt E1 E2] Hfit Hinv.
  - rewrite E1, E2. done.
  - right. lia.
  - left. rewrite E2, E1. rewrite uint32_small; lia.
Qed.

Lemma quiescent_invariant F s :
  quiescent F s -> log_size s < 2 ^ 32 -> slot_invariant s.
Proof.
  induction 1 as [|op s s' Hs IH Hop]; intros Hfit.
  - by left.
  - apply perform_log_step in Hop.
    apply (log_step_invariant s s' Hop Hfit). apply IH.
    pose proof (log_step_grows _ _ Hop). lia.
Qed.

Lemma completion_restores_equality s s' :
  slot_invariant s -> log_size s < 2 ^ 32 ->
  current_connection_request_ s < log_size s /\
  log_size s' = log_size s /\
  current_connection_request_ s' = uint32 (current_connection_request_ s + 1) ->
  log_size s = current_connection_request_ s + 1 /\
  current_connection_request_ s' = current_connection_request_ s + 1 /\
  log_size s' = current_connection_request_ s'.
Proof.
  unfold slot_invariant. intros Hinv Hfit (Hlt & E1 & E2).
  rewrite E1, E2. rewrite uint32_small; lia.
Qed.

(** ** The sample requests *)

Lemma sample_well_formed : well_formed parse_address sample_outgoing.
Proof. by eexists. Qed.

(** The state after [m] sample requests, for [m] up to [2 ^ 32]. The
    count stays a binary number: nothing here runs [m] rounds. *)
Lemma served_run m :
  m <= 2 ^ 32 ->
  exists hs s,
    served (N.to_nat m) = Done hs s /\
    (forall i, i < m -> hs !! N.to_nat i = Some (Some (to_handle i))) /\
    log_size s = m /\
    current_connection_request_ s = uint32 m /\
    quiescent parse_address s /\
    length (connections s) = N.to_nat m /\
    (0 < m -> acl_connections_ s !! 0x10 = Some 0%nat).
Proof.
  intros Hm.
  destruct (serve_all_run parse_address (replicate (N.to_nat m) sample_outgoing)
              initial_state)
    as (hs & s & Hrun & _ & Hhs & Hsize & Hcur & Hq & _ & Hsucc).
  - apply Forall_replicate, sample_well_formed.
  - reflexivity.
  - rewrite length_replicate, N2Nat.id. unfold log_size. cbn. lia.
  - destruct Hsucc as [Hconns Hfirst]; [by apply Forall_replicate|].
    rewrite length_replicate, N2Nat.id in Hsize.
    rewrite length_replicate in Hconns.
    change (log_size initial_state) with 0 in Hsize, Hhs.
    exists hs, s. repeat split.
    + exact Hrun.
    + intros i Hi. rewrite (Hhs (N.to_nat i) sample_outgoing).
      * by rewrite N2Nat.id.
      * apply lookup_replicate_2. lia.
    + lia.
    + rewrite Hcur. f_equal. lia.
    + apply Hq. constructor.
    + exact Hconns.
    + intros Hpos. apply Hfirst; [|reflexivity].
      intros E. apply (f_equal length) in E.
      rewrite length_replicate in E. cbn in E. lia.
Qed.

(** After [m] sample requests one more is issued: it is admitted as
    request number [m]. *)
Lemma outstanding_run m :
  m < 2 ^ 32 ->
  exists hs s s1,
    served (N.to_nat m) = Done hs s /\
    CreateConnection parse_address sample_request s = Done (InRunLoop m) s1 /\
    current_connection_request_ s1 = m /\
    per_connection_events_ s1 !! N.to_nat m
      = Some (new_queue ("connection attempt " +:+ pretty m)) /\
    length (connections s1) = N.to_nat m /\
    (0 < m -> acl_connections_ s1 !! 0x10 = Some 0%nat).
Proof.
  intros Hm.
  destruct (served_run m) as (hs & s & Hrun & _ & Hsize & Hcur & _ & Hconns & Hreg);
    [lia|].
  rewrite uint32_small in Hcur by done.
  assert (parse_address (address sample_request)
          = Some (mkAddress [0xFF; 0xEE; 0xDD; 0xCC; 0xBB; 0xAA])) as HF by reflexivity.
  pose proof (CreateConnection_accepted parse_address sample_request _ s HF
                ltac:(by rewrite Hsize, Hcur)) as H1.
  rewrite Hcur in H1.
  eexists hs, s, _. split; [exact Hrun|]. split; [exact H1|]. cbn.
  split; [done|]. split; [|done].
  replace (N.to_nat m) with (length (per_connection_events_ s))
    by (unfold log_size in Hsize; lia).
  by apply list_lookup_middle.
Qed.

Lemma one_outstanding_run :
  (serve_outgoing parse_address sample_outgoing;;
   CreateConnection parse_address sample_request) initial_state
  = Done (InRunLoop 1) one_outstanding.
Proof. vm_compute. reflexivity. Qed.

Lemma one_outstanding_quiescent : quiescent parse_address one_outstanding.
Proof.
  pose proof one_outstanding_run as H. revert H. facade.
  destruct (serve_outgoing _ _ _) as [h s|] eqn:E; [|done]. intros H.
  apply (quiescent_step _ (CallCreateConnection sample_request) s).
  - eapply serve_outgoing_quiescent; [constructor|exact E].
  - cbn. by rewrite H.
Qed.

Lemma one_undelivered_run :
  (CreateConnection parse_address sample_request;;
   OnLeConnectFail sample_peer 0x3e) initial_state
  = Done tt one_undelivered.
Proof. vm_compute. reflexivity. Qed.

(** * The claims *)

(** ** C1: handles of requests served one at a time *)

(** Against C1 as stated: with 4294967281 requests served one at a time,
    the last request is delivered handle 0, where [(n - 1 + 0x10) mod
    0xe00] is 2048: the sum in [to_handle] wraps at [2 ^ 32]. *)
Lemma handle_formula_fails_at_wrap :
  exists hs s,
    served (N.to_nat 4294967281) = Done hs s /\
    hs !! N.to_nat 4294967280 = Some (Some 0) /\
    (4294967280 + 0x10) mod 0xe00 = 2048.
Proof.
  destruct (served_run 4294967281) as (hs & s & Hrun & Hhs & _); [lia|].
  exists hs, s. split; [exact Hrun|]. split.
  - rewrite Hhs by lia. reflexivity.
  - reflexivity.
Qed.

(** C1 (as amended). For every sequence of at most [2 ^ 32 - 0x10]
    outgoing requests with well-formed addresses, issued one at a time
    from the initial state, each answered by the connect-success or the
    connect-failure callback and its stream drained before the next is
    issued, the serving runs to completion, and the handle delivered on
    the stream of the [n]-th request (n from 1 to the number of
    requests), when that request is answered by connect success, is
    [(n - 1 + 0x10) mod 0xe00], which is [to_handle (n - 1)]. *)
Theorem nth_request_handle F (l : list outgoing) (n : nat) (o : outgoing) :
  Forall (well_formed F) l ->
  N.of_nat (length l) <= 2 ^ 32 - 0x10 ->
  (1 <= n)%nat ->
  l !! (n - 1)%nat = Some o ->
  succeeds o ->
  exists hs s,
    serve_all F l initial_state = Done hs s /\
    hs !! (n - 1)%nat = Some (Some ((N.of_nat n - 1 + 0x10) mod 0xe00)) /\
    (N.of_nat n - 1 + 0x10) mod 0xe00 = to_handle (N.of_nat n - 1).
Proof.
  intros Hwf Hlen Hn Ho Hsucc.
  pose proof (lookup_lt_Some _ _ _ Ho) as Hlt.
  destruct (serve_all_run F l initial_state Hwf)
    as (hs & s & Hrun & _ & Hhs & _); [reflexivity| |].
  - unfold log_size. cbn. lia.
  - exists hs, s. split; [exact Hrun|].
    rewrite (Hhs _ _ Ho). change (log_size initial_state) with 0.
    replace (0 + N.of_nat (n - 1)) with (N.of_nat n - 1) by lia.
    unfold succeeds in Hsucc. destruct (out_answer o); [|done].
    cbn [answered_handle]. rewrite to_handle_in_range by lia. done.
Qed.

Lemma nth_request_handle_witness :
  exists hs s,
    serve_all parse_address [sample_outgoing; sample_failing; sample_outgoing]
      initial_state = Done hs s /\
    hs !! 2%nat = Some (Some 0x12) /\ 0x12 = to_handle 2.
Proof.
  apply (nth_request_handle parse_address
           [sample_outgoing; sample_failing; sample_outgoing] 3 sample_outgoing).
  - repeat constructor; apply sample_well_formed.
  - cbn. lia.
  - lia.
  - reflexivity.
  - exact I.
Defined.

(** ** C2: a request while another is outstanding *)




(** ** C3: the handle allocator *)

(** Against C3 as stated: sequence number [0xe00 - 0x10] is given handle
    0, which is below [0x10]; and at sequence number [2 ^ 32 - 0x10] the
    handle is 0 where [(seq + 0x10) mod 0xe00] is 2048. *)
Lemma to_handle_below_base :
  to_handle 3568 = 0 /\ ~ (0x10 <= to_handle 3568) /\
  to_handle 4294967280 = 0 /\ (4294967280 + 0x10) mod 0xe00 = 2048.
Proof. repeat split. intros H. vm_compute in H. by apply H. Qed.

(** C3 (as amended). The handle allocator is a total function that, for
    every sequence number [seq], returns [((seq + 0x10) mod 2 ^ 32) mod
    0xe00], a handle in the interval [[0, 0xe00)]; this is [(seq + 0x10)
    mod 0xe00] whenever [seq + 0x10] fits 32 bits. *)
Theorem to_handle_range seq :
  to_handle seq = ((seq + 0x10) mod 2 ^ 32) mod 0xe00 /\
  to_handle seq < 0xe00 /\
  (seq + 0x10 < 2 ^ 32 -> to_handle seq = (seq + 0x10) mod 0xe00).
Proof.
  split; [apply to_handle_eq|]. split; [apply to_handle_lt|apply to_handle_in_range].
Qed.

Lemma to_handle_range_witness :
  to_handle 3584 = ((3584 + 0x10) mod 2 ^ 32) mod 0xe00 /\
  to_handle 3584 < 0xe00 /\
  3584 + 0x10 < 2 ^ 32 /\ to_handle 3584 = (3584 + 0x10) mod 0xe00.
Proof.
  destruct (to_handle_range 3584) as (H1 & H2 & H3).
  split; [exact H1|]. split; [exact H2|].
  split; [reflexivity|]. apply H3. reflexivity.
Defined.

(** ** C4: the connect-success callback *)

(** Against C4 as stated: after 3584 served requests, request number 3584
    is given handle [0x10] again. Its connect-success callback creates
    connection object 3584, and the registry still maps [0x10] to
    connection object 0: the new connection is not inserted. And the
    callback of request number [2 ^ 32 - 1] leaves the sequence number 0,
    not [2 ^ 32]. *)
Lemma stale_registry_entry_kept :
  (exists hs s s1 s',
     served 3584 = Done hs s /\
     CreateConnection parse_address sample_request s = Done (InRunLoop 3584) s1 /\
     OnLeConnectSuccess sample_peer fresh_connection s1 = Done tt s' /\
     to_handle 3584 = 0x10 /\
     connections s' !! 3584%nat = Some (registered 3584 fresh_connection) /\
     acl_connections_ s' !! 0x10 = Some 0%nat) /\
  (exists hs s s1 s',
     served (N.to_nat 4294967295) = Done hs s /\
     CreateConnection parse_address sample_request s
       = Done (InRunLoop 4294967295) s1 /\
     current_connection_request_ s1 = 4294967295 /\
     OnLeConnectSuccess sample_peer fresh_connection s1 = Done tt s' /\
     current_connection_request_ s' = 0).
Proof.
  split.
  - destruct (outstanding_run 3584)
      as (hs & s & s1 & Hrun & H1 & Hcur & Hq & Hconns & Hreg); [lia|].
    change (N.to_nat 3584) with 3584%nat in Hrun, Hconns.
    specialize (Hreg ltac:(lia)). rewrite <- Hcur in Hq.
    pose proof (OnLeConnectSuccess_run sample_peer fresh_connection s1 _ Hq) as H2.
    rewrite Hcur in H2.
    eexists hs, s, s1, _. split; [exact Hrun|]. split; [exact H1|].
    split; [exact H2|]. split; [reflexivity|].
    cbn [connections acl_connections_]. split.
    + rewrite <- Hconns. by apply list_lookup_middle.
    + by apply emplace_lookup_kept.
  - destruct (outstanding_run 4294967295)
      as (hs & s & s1 & Hrun & H1 & Hcur & Hq & _); [lia|].
    rewrite <- Hcur in Hq.
    pose proof (OnLeConnectSuccess_run sample_peer fresh_connection s1 _ Hq) as H2.
    rewrite Hcur in H2.
    eexists hs, s, s1, _. split; [exact Hrun|]. split; [exact H1|].
    split; [exact Hcur|]. split; [exact H2|]. reflexivity.
Qed.

(** C4 (as amended). On a connect-success callback with an outstanding
    request at sequence number [seq], the facade takes shared ownership of
    the connection with its dequeue, disconnect and management callbacks
    registered, inserts it into the registry under [to_handle seq] when
    that handle is not in the registry yet and leaves the registry as it
    is otherwise, pushes into the Event Channel at index [seq] a
    connection-complete event with status SUCCESS, handle [to_handle seq]
    ([0x10] for the first request) and role MASTER, and only then
    increments the sequence number to [(seq + 1) mod 2 ^ 32]. *)
Theorem OnLeConnectSuccess_outstanding peer connection s seq :
  current_connection_request_ s = seq ->
  seq < log_size s ->
  exists q s',
    per_connection_events_ s !! N.to_nat seq = Some q /\
    OnLeConnectSuccess peer connection s = Done tt s' /\
    connections s' = connections s ++ [registered seq connection] /\
    (acl_connections_ s !! to_handle seq = None ->
     acl_connections_ s' =
       <[to_handle seq := length (connections s)]> (acl_connections_ s)) /\
    (is_Some (acl_connections_ s !! to_handle seq) ->
     acl_connections_ s' = acl_connections_ s) /\
    per_connection_events_ s' =
      <[N.to_nat seq :=
          OnIncomingEvent
            (mkLeConnectionEvent
               (Serialized
                  (LeConnectionCompleteBuilder SUCCESS (to_handle seq) MASTER
                     (GetAddressType peer) (GetAddress peer) 1 2 3 PPM_20))) q]>
        (per_connection_events_ s) /\
    current_connection_request_ s' = uint32 (seq + 1) /\
    (seq + 1 < 2 ^ 32 -> current_connection_request_ s' = seq + 1) /\
    to_handle 0 = 0x10.
Proof.
  intros <- Hlt. destruct (lookup_log _ _ Hlt) as [q Hq].
  exists q. eexists. split; [exact Hq|].
  split; [by apply OnLeConnectSuccess_run|]. cbn.
  split; [done|]. split; [apply emplace_absent|]. split; [apply emplace_present|].
  split; [done|]. split; [done|]. split; [apply uint32_small|done].
Qed.

Lemma OnLeConnectSuccess_outstanding_witness :
  exists q s',
    per_connection_events_ one_outstanding !! N.to_nat 1 = Some q /\
    OnLeConnectSuccess sample_peer fresh_connection one_outstanding = Done tt s' /\
    connections s' = connections one_outstanding ++ [registered 1 fresh_connection] /\
    (acl_connections_ one_outstanding !! to_handle 1 = None ->
     acl_connections_ s' =
       <[to_handle 1 := length (connections one_outstanding)]>
         (acl_connections_ one_outstanding)) /\
    (is_Some (acl_connections_ one_outstanding !! to_handle 1) ->
     acl_connections_ s' = acl_connections_ one_outstanding) /\
    per_connection_events_ s' =
      <[N.to_nat 1 :=
          OnIncomingEvent
            (mkLeConnectionEvent
               (Serialized
                  (LeConnectionCompleteBuilder SUCCESS (to_handle 1) MASTER
                     (GetAddressType sample_peer) (GetAddress sample_peer) 1 2 3 PPM_20))) q]>
        (per_connection_events_ one_outstanding) /\
    current_connection_request_ s' = uint32 (1 + 1) /\
    (1 + 1 < 2 ^ 32 -> current_connection_request_ s' = 1 + 1) /\
    to_handle 0 = 0x10.
Proof.
  apply (OnLeConnectSuccess_outstanding sample_peer fresh_connection one_outstanding 1).
  - reflexivity.
  - unfold log_size. cbn. lia.
Defined.

(** ** C5: unknown handles *)

(** Against C5 as stated: with only handle [0x10] registered, handle
    65552 is absent from the registry, but the lookup narrows it to the
    [uint16_t] key [0x10]: [SendAclData] registers an enqueue callback on
    the connection and [Disconnect] returns OK and asks it to
    disconnect. *)
Lemma narrowed_handle_is_found :
  acl_connections_ one_outstanding !! 65552 = None /\
  uint16 65552 = 0x10 /\
  SendAclData (mkLeAclData 65552 [1; 2; 3]) one_outstanding =
    Done WaitingForEnqueue
      (set_connections
         [RegisterEnqueue (mkLeAclData 65552 [1; 2; 3]) (registered 0 fresh_connection)]
         one_outstanding) /\
  Disconnect (mkLeHandleMsg 65552) one_outstanding =
    Done (Returned Status_OK)
      (set_connections
         [connection_Disconnect REMOTE_USER_TERMINATED_CONNECTION
            (registered 0 fresh_connection)]
         one_outstanding).
Proof. repeat split; vm_compute; reflexivity. Qed.

(** C5 (as amended). For every handle whose [uint16_t] narrowing, the key
    the lookup uses ([h mod 2 ^ 16], so [h] itself for a handle below
    [2 ^ 16]), is absent from the Connection Registry, [SendAclData] and
    [Disconnect] return INVALID_ARGUMENT and leave the whole state as it
    was: registry, Request Event Log, sequence number, and every
    connection's queues, callbacks and disconnect requests. *)
Theorem unknown_handle_is_invalid_argument s h data :
  acl_connections_ s !! uint16 h = None ->
  SendAclData (mkLeAclData h data) s = Done (Returned invalid_handle) s /\
  Disconnect (mkLeHandleMsg h) s = Done (Returned invalid_handle) s /\
  error_code invalid_handle = INVALID_ARGUMENT.
Proof.
  intros Hh. unfold SendAclData, Disconnect. facade. rewrite Hh. done.
Qed.

Lemma unknown_handle_is_invalid_argument_witness :
  SendAclData (mkLeAclData 0x10 [1; 2; 3]) initial_state
    = Done (Returned invalid_handle) initial_state /\
  Disconnect (mkLeHandleMsg 0x10) initial_state
    = Done (Returned invalid_handle) initial_state /\
  error_code invalid_handle = INVALID_ARGUMENT.
Proof.
  apply (unknown_handle_is_invalid_argument initial_state 0x10 [1; 2; 3]).
  reflexivity.
Defined.

(** ** C6: the connect-failure callback *)

(** Against C6 as stated: with request number [2 ^ 32 - 1] outstanding,
    the connect-failure callback leaves the sequence number 0, not [2 ^
    32]. *)
Lemma sequence_number_wraps :
  exists hs s s1 s',
    served (N.to_nat 4294967295) = Done hs s /\
    CreateConnection parse_address sample_request s
      = Done (InRunLoop 4294967295) s1 /\
    current_connection_request_ s1 = 4294967295 /\
    OnLeConnectFail sample_peer 0x3e s1 = Done tt s' /\
    current_connection_request_ s' = 0.
Proof.
  destruct (outstanding_run 4294967295)
    as (hs & s & s1 & Hrun & H1 & Hcur & Hq & _); [lia|].
  rewrite <- Hcur in Hq.
  pose proof (OnLeConnectFail_run sample_peer 0x3e s1 _ Hq) as H2.
  rewrite Hcur in H2.
  eexists hs, s, s1, _. split; [exact Hrun|]. split; [exact H1|].
  split; [exact Hcur|]. split; [exact H2|]. reflexivity.
Qed.

(** C6 (as amended). On a connect-failure callback with an outstanding
    request at sequence number [seq], the facade pushes into the Event
    Channel at index [seq] a connection-complete event that carries the
    reason and handle 0, and increments the sequence number to
    [(seq + 1) mod 2 ^ 32]; the Connection Registry and the connections
    are unchanged. *)
Theorem OnLeConnectFail_outstanding peer reason s seq :
  current_connection_request_ s = seq ->
  seq < log_size s ->
  exists q s',
    per_connection_events_ s !! N.to_nat seq = Some q /\
    OnLeConnectFail peer reason s = Done tt s' /\
    per_connection_events_ s' =
      <[N.to_nat seq :=
          OnIncomingEvent
            (mkLeConnectionEvent
               (Serialized
                  (LeConnectionCompleteBuilder reason 0 MASTER
                     (GetAddressType peer) (GetAddress peer) 0 0 0 PPM_20))) q]>
        (per_connection_events_ s) /\
    current_connection_request_ s' = uint32 (seq + 1) /\
    (seq + 1 < 2 ^ 32 -> current_connection_request_ s' = seq + 1) /\
    acl_connections_ s' = acl_connections_ s /\
    connections s' = connections s /\
    pending_acl_data_ s' = pending_acl_data_ s /\
    acl_manager_calls s' = acl_manager_calls s.
Proof.
  intros <- Hlt. destruct (lookup_log _ _ Hlt) as [q Hq].
  exists q. eexists. split; [exact Hq|].
  split; [by apply OnLeConnectFail_run|]. cbn.
  split; [done|]. split; [done|]. split; [apply uint32_small|done].
Qed.

Lemma OnLeConnectFail_outstanding_witness :
  exists q s',
    per_connection_events_ one_outstanding !! N.to_nat 1 = Some q /\
    OnLeConnectFail sample_peer 0x3e one_outstanding = Done tt s' /\
    per_connection_events_ s' =
      <[N.to_nat 1 :=
          OnIncomingEvent
            (mkLeConnectionEvent
               (Serialized
                  (LeConnectionCompleteBuilder 0x3e 0 MASTER
                     (GetAddressType sample_peer) (GetAddress sample_peer) 0 0 0 PPM_20))) q]>
        (per_connection_events_ one_outstanding) /\
    current_connection_request_ s' = uint32 (1 + 1) /\
    (1 + 1 < 2 ^ 32 -> current_connection_request_ s' = 1 + 1) /\
    acl_connections_ s' = acl_connections_ one_outstanding /\
    connections s' = connections one_outstanding /\
    pending_acl_data_ s' = pending_acl_data_ one_outstanding /\
    acl_manager_calls s' = acl_manager_calls one_outstanding.
Proof.
  apply (OnLeConnectFail_outstanding sample_peer 0x3e one_outstanding 1).
  - reflexivity.
  - unfold log_size. cbn. lia.
Defined.

(** ** C7: the disconnect callback *)

(** C7. On the disconnect notification of a connection that originated at
    request sequence number [seq] (the entry [OnLeConnectSuccess] bound
    to its callback, see [registered_callbacks]), the facade unregisters
    the connection's dequeue callback, finishes the connection, and
    pushes a disconnect event with handle [to_handle seq] and the reason
    into the Event Channel at index [seq]; the shared incoming-data
    channel and the Connection Registry are unchanged, so the registry's
    entry for the handle stays. *)
Theorem on_disconnect_relays connection c seq code s :
  connections s !! connection = Some c ->
  seq < log_size s ->
  exists q s',
    per_connection_events_ s !! N.to_nat seq = Some q /\
    on_disconnect connection seq code s = Done tt s' /\
    per_connection_events_ s' =
      <[N.to_nat seq :=
          OnIncomingEvent
            (mkLeConnectionEvent
               (Serialized (DisconnectBuilder (to_handle seq) code))) q]>
        (per_connection_events_ s) /\
    connections s' = <[connection := Finish (UnregisterDequeue c)]> (connections s) /\
    pending_acl_data_ s' = pending_acl_data_ s /\
    acl_connections_ s' = acl_connections_ s /\
    current_connection_request_ s' = current_connection_request_ s.
Proof.
  intros Hc Hlt. destruct (lookup_log _ _ Hlt) as [q Hq].
  exists q. eexists. split; [exact Hq|].
  split; [by eapply on_disconnect_run|]. done.
Qed.

Lemma on_disconnect_relays_witness :
  exists q s',
    per_connection_events_ one_outstanding !! N.to_nat 0 = Some q /\
    on_disconnect 0%nat 0 0x13 one_outstanding = Done tt s' /\
    per_connection_events_ s' =
      <[N.to_nat 0 :=
          OnIncomingEvent
            (mkLeConnectionEvent
               (Serialized (DisconnectBuilder (to_handle 0) 0x13))) q]>
        (per_connection_events_ one_outstanding) /\
    connections s' = <[0%nat := Finish (UnregisterDequeue (registered 0 fresh_connection))]>
                       (connections one_outstanding) /\
    pending_acl_data_ s' = pending_acl_data_ one_outstanding /\
    acl_connections_ s' = acl_connections_ one_outstanding /\
    current_connection_request_ s' = current_connection_request_ one_outstanding.
Proof.
  apply (on_disconnect_relays 0%nat (registered 0 fresh_connection) 0 0x13 one_outstanding).
  - reflexivity.
  - unfold log_size. cbn. lia.
Defined.

(** ** C8: the connect primitive comes first *)

(** C8. A [CreateConnection] with a well-formed address is the manager's
    [CreateLeConnection] followed by the admission check: whenever the
    call completes, exactly one call of the connect primitive has been
    added, and a call rejected with RESOURCE_EXHAUSTED has made it too. *)
Theorem CreateConnection_connects_before_admission F request peer_address s :
  F (address request) = Some peer_address ->
  CreateConnection F request s =
    (CreateLeConnection (peer_of peer_address request);;
     admission "Only one outstanding request is supported" "connection attempt ") s /\
  (forall r s', CreateConnection F request s = Done r s' ->
     acl_manager_calls s' = acl_manager_calls s ++ [peer_of peer_address request]) /\
  (current_connection_request_ s < log_size s ->
     CreateConnection F request s =
       Done (Returned rejection)
            (set_acl_manager_calls
               (acl_manager_calls s ++ [peer_of peer_address request]) s)).
Proof.
  intros HF. split; [by rewrite (CreateConnection_admission F _ _ HF)|]. split.
  - intros r s'. rewrite (CreateConnection_admission F _ _ HF). facade.
    intros H. by apply admission_calls in H.
  - intros Hlt. by apply CreateConnection_rejected.
Qed.

Lemma CreateConnection_connects_before_admission_witness :
  CreateConnection parse_address sample_request one_outstanding =
    Done (Returned rejection)
         (set_acl_manager_calls [sample_peer; sample_peer; sample_peer] one_outstanding).
Proof.
  apply (CreateConnection_connects_before_admission parse_address sample_request
           (mkAddress [0xFF; 0xEE; 0xDD; 0xCC; 0xBB; 0xAA]) one_outstanding).
  - reflexivity.
  - unfold log_size. cbn. lia.
Defined.

(** ** C9: the shape of the Request Event Log *)

(** Against C9 as stated: after [2 ^ 32] served requests the log holds [2
    ^ 32] channels and the sequence number is 0 again. *)
Lemma slot_invariant_lost_at_wrap :
  exists hs s,
    served (N.to_nat 4294967296) = Done hs s /\
    quiescent parse_address s /\
    log_size s = 4294967296 /\
    current_connection_request_ s = 0 /\
    ~ slot_invariant s.
Proof.
  destruct (served_run 4294967296) as (hs & s & Hrun & _ & Hsize & Hcur & Hq & _);
    [lia|].
  change (uint32 4294967296) with 0 in Hcur.
  exists hs, s.
  split; [exact Hrun|]. split; [exact Hq|]. split; [exact Hsize|].
  split; [exact Hcur|].
  unfold slot_invariant. rewrite Hsize, Hcur. lia.
Qed.

(** C9 (as amended). At every quiescent state whose Request Event Log
    holds fewer than [2 ^ 32] channels, the length of the log is the
    sequence number or the sequence number plus one; a call of
    [CreateConnection] or [FetchIncomingConnection] that enters its event
    loop found the length equal to the sequence number and leaves it one
    more; and a completed [OnLeConnectSuccess] or [OnLeConnectFail] found
    the length one more than the sequence number and restores equality by
    incrementing the sequence number. *)
Theorem slot_invariant_quiescent F s :
  quiescent F s ->
  log_size s < 2 ^ 32 ->
  slot_invariant s /\
  (forall request index s',
     CreateConnection F request s = Done (InRunLoop index) s' ->
     log_size s = current_connection_request_ s /\
     log_size s' = current_connection_request_ s' + 1) /\
  (forall index s',
     FetchIncomingConnection s = Done (InRunLoop index) s' ->
     log_size s = current_connection_request_ s /\
     log_size s' = current_connection_request_ s' + 1) /\
  (forall peer connection s',
     OnLeConnectSuccess peer connection s = Done tt s' ->
     log_size s = current_connection_request_ s + 1 /\
     current_connection_request_ s' = current_connection_request_ s + 1 /\
     log_size s' = current_connection_request_ s') /\
  (forall peer reason s',
     OnLeConnectFail peer reason s = Done tt s' ->
     log_size s = current_connection_request_ s + 1 /\
     current_connection_request_ s' = current_connection_request_ s + 1 /\
     log_size s' = current_connection_request_ s').
Proof.
  intros Hq Hfit. pose proof (quiescent_invariant F s Hq Hfit) as Hinv.
  split; [exact Hinv|]. split; [|split; [|split]].
  - intros request index s' H.
    apply CreateConnection_InRunLoop in H as (H1 & H2 & H3). lia.
  - intros index s' H.
    apply FetchIncomingConnection_InRunLoop in H as (H1 & H2 & H3). lia.
  - intros peer connection s' H.
    by apply completion_restores_equality, (OnLeConnectSuccess_completes peer connection).
  - intros peer reason s' H.
    by apply completion_restores_equality, (OnLeConnectFail_completes peer reason).
Qed.

Lemma slot_invariant_quiescent_witness :
  slot_invariant one_outstanding /\
  log_size one_outstanding = current_connection_request_ one_outstanding + 1.
Proof.
  destruct (slot_invariant_quiescent parse_address one_outstanding)
    as (Hinv & _ & _ & _ & Hfail).
  - apply one_outstanding_quiescent.
  - unfold log_size. cbn. lia.
  - split; [exact Hinv|].
    destruct (OnLeConnectFail sample_peer 0x3e one_outstanding) as [[] s'|] eqn:E.
    + apply (Hfail sample_peer 0x3e s' E).
    + discriminate E.
Defined.

(** ** C10: indexing the Request Event Log *)

(** C10. In every state, [OnLeConnectSuccess] and [OnLeConnectFail]
    complete exactly when the log is longer than the sequence number, and
    index past the end of the vector exactly when it is not;
    [on_disconnect] on a live connection completes exactly when the log
    is longer than its entry, and indexes past the end exactly when it is
    not. *)
Theorem callbacks_index_within_bounds s peer new_connection reason :
  ((current_connection_request_ s < log_size s <->
    exists s', OnLeConnectSuccess peer new_connection s = Done tt s') /\
   (log_size s <= current_connection_request_ s <->
    OnLeConnectSuccess peer new_connection s = Abort IndexOutOfRange)) /\
  ((current_connection_request_ s < log_size s <->
    exists s', OnLeConnectFail peer reason s = Done tt s') /\
   (log_size s <= current_connection_request_ s <->
    OnLeConnectFail peer reason s = Abort IndexOutOfRange)) /\
  (forall connection c entry code,
     connections s !! connection = Some c ->
     (entry < log_size s <->
      exists s', on_disconnect connection entry code s = Done tt s') /\
     (log_size s <= entry <->
      on_disconnect connection entry code s = Abort IndexOutOfRange)).
Proof.
  assert (forall index, index < log_size s \/ log_size s <= index) as Hcases by (intros; lia).
  split; [|split].
  - destruct (Hcases (current_connection_request_ s)) as [Hlt|Hge].
    + destruct (lookup_log _ _ Hlt) as [q Hq].
      rewrite (OnLeConnectSuccess_run _ _ _ _ Hq). split; split; try done; try lia.
      by eexists.
    + rewrite (OnLeConnectSuccess_abort _ _ _ (lookup_log_None _ _ Hge)).
      split; split; try done; try lia. by intros [s' ?].
  - destruct (Hcases (current_connection_request_ s)) as [Hlt|Hge].
    + destruct (lookup_log _ _ Hlt) as [q Hq].
      rewrite (OnLeConnectFail_run _ _ _ _ Hq). split; split; try done; try lia.
      by eexists.
    + rewrite (OnLeConnectFail_abort _ _ _ (lookup_log_None _ _ Hge)).
      split; split; try done; try lia. by intros [s' ?].
  - intros connection c entry code Hc. destruct (Hcases entry) as [Hlt|Hge].
    + destruct (lookup_log _ _ Hlt) as [q Hq].
      rewrite (on_disconnect_run _ _ _ _ _ _ Hc Hq). split; split; try done; try lia.
      by eexists.
    + rewrite (on_disconnect_abort _ _ _ _ _ Hc (lookup_log_None _ _ Hge)).
      split; split; try done; try lia. by intros [s' ?].
Qed.

(** In the fresh service both terminal callbacks index past the end; with
    request number 1 outstanding they complete, and the disconnect
    callback of connection 0 completes at its entry 0 and indexes past
    the end at entry 5. *)
Lemma callbacks_index_within_bounds_witness :
  (OnLeConnectSuccess sample_peer fresh_connection initial_state = Abort IndexOutOfRange /\
   OnLeConnectFail sample_peer 0x3e initial_state = Abort IndexOutOfRange) /\
  ((exists s', OnLeConnectSuccess sample_peer fresh_connection one_outstanding = Done tt s') /\
   (exists s', OnLeConnectFail sample_peer 0x3e one_outstanding = Done tt s')) /\
  ((exists s', on_disconnect 0%nat 0 0x13 one_outstanding = Done tt s') /\
   on_disconnect 0%nat 5 0x13 one_outstanding = Abort IndexOutOfRange).
Proof.
  destruct (callbacks_index_within_bounds initial_state sample_peer fresh_connection 0x3e)
    as ((_ & Hs0) & (_ & Hf0) & _).
  destruct (callbacks_index_within_bounds one_outstanding sample_peer fresh_connection 0x3e)
    as ((Hs1 & _) & (Hf1 & _) & Hd).
  destruct (Hd 0%nat (registered 0 fresh_connection) 0 0x13 eq_refl) as (Hd0 & _).
  destruct (Hd 0%nat (registered 0 fresh_connection) 5 0x13 eq_refl) as (_ & Hd5).
  split; [split; [apply Hs0|apply Hf0]; unfold log_size; cbn; lia|].
  split; [split; [apply Hs1|apply Hf1]; unfold log_size; cbn; lia|].
  split; [apply Hd0|apply Hd5]; unfold log_size; cbn; lia.
Defined.

(** * Beyond the claims: supporting lemmas *)

(** ** Connections and registry, step by step *)

Global Instance evolves_refl : Reflexive evolves.
Proof. intros c. unfold evolves. auto. Qed.

Global Instance evolves_trans : Transitive evolves.
Proof.
  intros a b c (A1 & A2 & A3) (B1 & B2 & B3). unfold evolves.
  split; [congruence|]. split; [congruence|].
  destruct B3 as [B3|B3]; [|by right]. rewrite B3. exact A3.
Qed.

Lemma benign_connection_Disconnect reason : benign (connection_Disconnect reason).
Proof. unfold benign, evolves. cbn. auto. Qed.

Lemma benign_RegisterEnqueue request : benign (RegisterEnqueue request).
Proof. unfold benign, evolves. cbn. auto. Qed.

Lemma benign_UnregisterEnqueue : benign UnregisterEnqueue.
Proof. unfold benign, evolves. cbn. auto. Qed.

Lemma benign_UnregisterDequeue : benign UnregisterDequeue.
Proof. unfold benign, evolves. cbn. auto. Qed.

Lemma benign_Finish : benign Finish.
Proof. unfold benign, evolves. cbn. auto. Qed.

Lemma benign_set_rx_queue q : benign (set_rx_queue q).
Proof. unfold benign, evolves. cbn. auto. Qed.

Create HintDb benign.
#[global] Hint Resolve benign_connection_Disconnect benign_RegisterEnqueue
  benign_UnregisterEnqueue benign_UnregisterDequeue benign_Finish
  benign_set_rx_queue : benign.

Lemma with_connection_run connection f s c :
  connections s !! connection = Some c ->
  with_connection connection f s
  = Done tt (set_connections (<[connection := f c]> (connections s)) s).
Proof. intros H. unfold with_connection. by rewrite H. Qed.

Lemma with_connection_Done connection f s s' :
  with_connection connection f s = Done tt s' ->
  exists c, connections s !! connection = Some c /\
            s' = set_connections (<[connection := f c]> (connections s)) s.
Proof.
  unfold with_connection. destruct (connections s !! connection) as [c|]; [|done].
  intros [= <-]. by exists c.
Qed.

Lemma Forall2_evolves_insert l i c f :
  l !! i = Some c -> benign f -> Forall2 evolves l (<[i := f c]> l).
Proof.
  intros Hi Hf. rewrite <- (list_insert_id l i c) at 1 by done.
  apply Forall2_insert; [|apply Hf]. apply Forall_Forall2_diag, Forall_true.
  intros x. reflexivity.
Qed.

Lemma with_connection_heap_step connection f s s' :
  benign f -> with_connection connection f s = Done tt s' -> heap_step s s'.
Proof.
  intros Hf H. apply with_connection_Done in H as (c & Hc & ->).
  apply heap_evolves; [done|]. cbn. by apply Forall2_evolves_insert.
Qed.

Lemma heap_step_refl s s' :
  acl_connections_ s' = acl_connections_ s ->
  connections s' = connections s -> heap_step s s'.
Proof.
  intros E1 E2. apply heap_evolves; [done|]. rewrite E2.
  apply Forall_Forall2_diag, Forall_true. intros x. reflexivity.
Qed.

Lemma heap_step_evolves_trans s1 s2 s3 :
  acl_connections_ s2 = acl_connections_ s1 ->
  Forall2 evolves (connections s1) (connections s2) ->
  acl_connections_ s3 = acl_connections_ s2 ->
  Forall2 evolves (connections s2) (connections s3) ->
  heap_step s1 s3.
Proof.
  intros A1 A2 B1 B2. apply heap_evolves; [congruence|].
  eapply Forall2_trans; [|exact A2|exact B2].
  intros x y z. apply evolves_trans.
Qed.

Lemma admission_heap message prefix s r s' :
  admission message prefix s = Done r s' ->
  acl_connections_ s' = acl_connections_ s /\ connections s' = connections s.
Proof.
  intros H. destruct (admission_Done _ _ _ _ _ H) as [[-> _]|(index & -> & H')]; [done|].
  by apply admission_InRunLoop in H' as (_ & _ & ->).
Qed.

Section HeapSteps.

Variable F : string -> option Address.

Lemma perform_heap_step op s s' : perform F op s = Some s' -> heap_step s s'.
Proof.
  destruct op; cbn [perform].
  - destruct (CreateConnection F request s) as [r s1|] eqn:E; [|done]. intros [= <-].
    destruct (F (address request)) as [peer_address|] eqn:HF;
      [|by rewrite CreateConnection_malformed in E].
    rewrite (CreateConnection_admission _ _ _ HF) in E. revert E. facade.
    intros E. apply admission_heap in E as [E1 E2]. by apply heap_step_refl.
  - unfold Disconnect. facade.
    destruct (_ !! _); [|intros [= <-]; by apply heap_step_refl].
    destruct (with_connection _ _ s) as [[] s1|] eqn:E; [|done]. intros [= <-].
    eapply with_connection_heap_step; [|exact E]. auto with benign.
  - rewrite FetchIncomingConnection_admission.
    destruct (admission _ _ s) as [r s1|] eqn:E; [|done]. intros [= <-].
    apply admission_heap in E as [E1 E2]. by apply heap_step_refl.
  - unfold SendAclData. facade.
    destruct (_ !! _); [|intros [= <-]; by apply heap_step_refl].
    destruct (with_connection _ _ s) as [[] s1|] eqn:E; [|done]. intros [= <-].
    eapply with_connection_heap_step; [|exact E]. auto with benign.
  - intros [= <-]. by apply heap_step_refl.
  - unfold enqueue_packet. facade. destruct (_ !! _); [|done].
    destruct (with_connection _ _ s) as [[] s1|] eqn:E; [|done]. intros [= <-].
    eapply with_connection_heap_step; [|exact E]. auto with benign.
  - unfold on_incoming_acl. facade. destruct (connections s !! connection); [|done].
    destruct (rx_queue _) as [|packet rest]; [done|]. facade.
    destruct (with_connection _ _ s) as [[] s1|] eqn:E; [|done]. intros [= <-].
    apply (with_connection_heap_step _ _ _ _ (benign_set_rx_queue rest)) in E.
    destruct E as [E1 E2|]; [by apply heap_evolves|].
    by eapply heap_connected.
  - unfold on_disconnect. facade.
    destruct (with_connection _ _ s) as [[] s1|] eqn:E1; [|done].
    destruct (with_connection _ _ s1) as [[] s2|] eqn:E2; [|done].
    unfold per_connection_OnIncomingEvent. destruct (_ !! _); [|done].
    intros [= <-].
    apply with_connection_Done in E1 as (c1 & Hc1 & ->).
    apply with_connection_Done in E2 as (c2 & Hc2 & ->).
    apply heap_evolves; [done|]. cbn in *.
    transitivity (<[connection:=UnregisterDequeue c1]> (connections s)).
    + apply Forall2_evolves_insert; [exact Hc1|]. auto with benign.
    + apply Forall2_evolves_insert; [exact Hc2|]. auto with benign.
  - destruct (OnLeConnectSuccess peer connection s) as [[] s1|] eqn:E; [|done].
    intros [= <-].
    destruct (per_connection_events_ s !! N.to_nat (current_connection_request_ s))
      as [q|] eqn:Eq; [|by rewrite OnLeConnectSuccess_abort in E].
    rewrite (OnLeConnectSuccess_run _ _ _ _ Eq) in E. injection E as <-.
    apply (heap_connected _ _ connection); [by eapply lookup_log_Some|done|done|done].
  - destruct (OnLeConnectFail peer reason s) as [[] s1|] eqn:E; [|done].
    intros [= <-].
    destruct (per_connection_events_ s !! N.to_nat (current_connection_request_ s))
      as [q|] eqn:Eq; [|by rewrite OnLeConnectFail_abort in E].
    rewrite (OnLeConnectFail_run _ _ _ _ Eq) in E. injection E as <-.
    by apply heap_step_refl.
  - intros [= <-]. by apply heap_step_refl.
  - unfold drain. destruct (_ !! _); [|done]. intros [= <-].
    by apply heap_step_refl.
Qed.

End HeapSteps.
(** ** Soundness of the connections and the registry *)

Lemma heap_step_sound s s' :
  heap_step s s' -> log_size s <= log_size s' -> facade_sound s -> facade_sound s'.
Proof.
  intros Hstep Hlog [Hconns Hreg].
  destruct Hstep as [Ereg Hev|connection Hlt Ereg Econns Ecur].
  - split.
    + intros i c' Hi.
      destruct (Forall2_lookup_r _ _ _ _ _ Hev Hi) as (c & Hc & (E1 & E2 & E3)).
      destruct (Hconns i c Hc) as (entry & A1 & A2 & A3 & A4).
      exists entry. rewrite E1, E2. repeat split; [done|lia|done|].
      destruct E3 as [->| ->]; auto.
    + intros h i Hh. rewrite Ereg in Hh.
      destruct (Hreg h i Hh) as (c & entry & Hc & A1 & A2).
      destruct (Forall2_lookup_l _ _ _ _ _ Hev Hc) as (c' & Hc' & (E1 & _)).
      exists c', entry. by rewrite E1.
  - split.
    + intros i c Hi. rewrite Econns in Hi.
      apply lookup_app_Some in Hi as [Hi|[_ Hi]].
      * destruct (Hconns i c Hi) as (entry & A1 & A2 & A3 & A4).
        exists entry. repeat split; [done|lia|done|done].
      * apply list_lookup_singleton_Some in Hi as [_ <-].
        exists (current_connection_request_ s). cbn. repeat split; [lia|by left].
    + intros h i Hh. rewrite Ereg in Hh. rewrite Econns.
      unfold emplace in Hh.
      destruct (acl_connections_ s !! to_handle (current_connection_request_ s)) eqn:E.
      * destruct (Hreg h i Hh) as (c & entry & Hc & A1 & A2).
        exists c, entry. by rewrite lookup_app_l by (by eapply lookup_lt_Some).
      * apply lookup_insert_Some in Hh as [[<- <-]|[Hne Hh]].
        -- eexists _, _. split; [by apply list_lookup_middle|]. done.
        -- destruct (Hreg h i Hh) as (c & entry & Hc & A1 & A2).
           exists c, entry. by rewrite lookup_app_l by (by eapply lookup_lt_Some).
Qed.

Lemma heap_step_entries_below s s' :
  heap_step s s' -> log_step s s' -> log_size s' < 2 ^ 32 ->
  entries_below s -> entries_below s'.
Proof.
  intros Hstep Hlog Hfit Hbelow i c' entry Hi Hentry.
  assert (current_connection_request_ s <= current_connection_request_ s') as Hcur.
  { destruct Hlog as [E1 E2|E0 E1 E2|Hlt E1 E2]; [lia|lia|].
    rewrite E2, uint32_small; lia. }
  destruct Hstep as [Ereg Hev|connection Hlt Ereg Econns Ecur].
  - destruct (Forall2_lookup_r _ _ _ _ _ Hev Hi) as (c & Hc & (E1 & _)).
    rewrite E1 in Hentry. specialize (Hbelow i c entry Hc Hentry). lia.
  - rewrite Econns in Hi. apply lookup_app_Some in Hi as [Hi|[_ Hi]].
    + specialize (Hbelow i c' entry Hi Hentry). lia.
    + apply list_lookup_singleton_Some in Hi as [_ <-]. cbn in Hentry.
      injection Hentry as <-. rewrite Ecur, uint32_small; [lia|].
      pose proof (log_step_grows _ _ Hlog). lia.
Qed.

Lemma heap_step_registry_kept s s' h i :
  heap_step s s' -> acl_connections_ s !! h = Some i ->
  acl_connections_ s' !! h = Some i.
Proof.
  intros [Ereg _|connection _ Ereg _ _] Hh; rewrite Ereg; [done|].
  by apply emplace_lookup_kept.
Qed.

Section Soundness.

Variable F : string -> option Address.

Lemma quiescent_sound s : quiescent F s -> facade_sound s.
Proof.
  induction 1 as [|op s s' Hs IH Hop].
  - split; [intros i c Hi|intros h i Hh]; done.
  - apply (heap_step_sound s s'); [by eapply perform_heap_step| |done].
    apply log_step_grows. by eapply perform_log_step.
Qed.

Lemma quiescent_entries_below s :
  quiescent F s -> log_size s < 2 ^ 32 -> entries_below s.
Proof.
  induction 1 as [|op s s' Hs IH Hop]; intros Hfit.
  - intros i c entry Hi. done.
  - pose proof (perform_log_step F _ _ _ Hop) as Hlog.
    apply (heap_step_entries_below s s'); [by eapply perform_heap_step|done|done|].
    apply IH. pose proof (log_step_grows _ _ Hlog). lia.
Qed.

End Soundness.

(** ** Handles within one period *)

Lemma to_handle_period seq :
  seq + 0xe00 + 0x10 < 2 ^ 32 -> to_handle (seq + 0xe00) = to_handle seq.
Proof.
  intros H. rewrite !to_handle_in_range by lia.
  replace (seq + 0xe00 + 0x10) with (seq + 0x10 + 1 * 0xe00) by lia.
  by rewrite N.Div0.mod_add.
Qed.

Lemma to_handle_distinct a b :
  a < b -> b < a + 0xe00 -> b + 0x10 < 2 ^ 32 -> to_handle a <> to_handle b.
Proof.
  intros Hab Hwin Hfit. rewrite !to_handle_in_range by lia.
  pose proof (N.Div0.div_mod (a + 0x10) 0xe00).
  pose proof (N.Div0.div_mod (b + 0x10) 0xe00).
  pose proof (N.mod_upper_bound (a + 0x10) 0xe00).
  pose proof (N.mod_upper_bound (b + 0x10) 0xe00).
  lia.
Qed.

(** ** The data relay and the teardown *)

Lemma set_rx_queue_id c : set_rx_queue (rx_queue c) c = c.
Proof. by destruct c. Qed.

Lemma on_incoming_acl_run connection handle s c packet rest :
  connections s !! connection = Some c ->
  rx_queue c = packet :: rest ->
  on_incoming_acl connection handle s =
    Done tt
      (set_pending_acl_data
         (OnIncomingEvent (mkLeAclData handle packet) (pending_acl_data_ s))
         (set_connections (<[connection := set_rx_queue rest c]> (connections s)) s)).
Proof.
  intros Hc Hrx. unfold on_incoming_acl. facade. rewrite Hc, Hrx. facade.
  by rewrite (with_connection_run _ _ _ _ Hc).
Qed.

(** Unregistering the dequeue callback of each connection of a list. *)
Lemma unregister_all_run ids : forall s,
  Forall (fun i => is_Some (connections s !! i)) ids ->
  exists conns',
    foldr (fun i rest => with_connection i UnregisterDequeue;; rest) (mret tt) ids s
    = Done tt (set_connections conns' s) /\
    length conns' = length (connections s) /\
    forall j c, connections s !! j = Some c ->
      conns' !! j = Some (if decide (j ∈ ids) then UnregisterDequeue c else c).
Proof.
  induction ids as [|i ids IH]; intros s Hids.
  - exists (connections s). split; [by destruct s|]. split; [done|].
    intros j c Hj. by rewrite decide_False by apply not_elem_of_nil.
  - apply Forall_cons in Hids as [[ci Hci] Hids].
    cbn [foldr]. unfold mbind at 1. unfold Facade_bind.
    rewrite (with_connection_run _ _ _ _ Hci).
    destruct (IH (set_connections (<[i := UnregisterDequeue ci]> (connections s)) s))
      as (conns' & Hrun & Hlen & Hlook).
    { cbn. eapply Forall_impl; [exact Hids|]. intros j [c Hj]. cbn in *.
      apply lookup_lt_is_Some. rewrite length_insert. by eapply lookup_lt_Some. }
    exists conns'. split; [etransitivity; [exact Hrun|reflexivity]|]. cbn in *.
    split; [by rewrite Hlen, length_insert|].
    intros j c Hj. destruct (decide (j = i)) as [->|Hne].
    + replace c with ci by congruence.
      rewrite (Hlook i (UnregisterDequeue ci))
        by (apply list_lookup_insert_eq; by eapply lookup_lt_Some).
      rewrite (decide_True (P := i ∈ i :: ids)) by apply list_elem_of_here.
      by destruct (decide (i ∈ ids)).
    + rewrite (Hlook j c) by (by rewrite list_lookup_insert_ne).
      destruct (decide (j ∈ ids)) as [Hin|Hnin].
      * by rewrite decide_True by (by apply list_elem_of_further).
      * rewrite decide_False; [done|]. intros Hin.
        apply elem_of_cons in Hin as [?|?]; done.
Qed.

Lemma registry_entries_elem (m : gmap N nat) h i :
  (h, i) ∈ registry_entries m <-> m !! h = Some i.
Proof.
  unfold registry_entries. rewrite merge_sort_Permutation.
  apply elem_of_map_to_list.
Qed.

Lemma destructor_fold s :
  destructor s =
    foldr (fun i rest => with_connection i UnregisterDequeue;; rest) (mret tt)
          ((registry_entries (acl_connections_ s)).*2) s.
Proof.
  unfold destructor. unfold mbind at 1. unfold Facade_bind, get.
  generalize (registry_entries (acl_connections_ s)). intros l.
  revert s. induction l as [|[h i] l IH]; intros s; [done|].
  cbn [foldr fmap list_fmap snd]. unfold mbind at 1 3. unfold Facade_bind.
  destruct (with_connection i UnregisterDequeue s) as [[] s1|]; [apply IH|done].
Qed.

(** * Further properties of the service *)

(** ** Handles *)

(** X1. Two sequence numbers are given the same handle exactly when they
    differ by a multiple of [0xe00] (as long as [seq + 0x10] fits 32
    bits): handles repeat with period [0xe00] and are distinct within a
    period. *)
Theorem handles_collide_at_period a b :
  a <= b -> b + 0x10 < 2 ^ 32 ->
  (to_handle a = to_handle b <-> (b - a) mod 0xe00 = 0).
Proof.
  intros Hab Hfit. rewrite !to_handle_in_range by lia.
  replace (b + 0x10) with ((a + 0x10) + (b - a)) by lia.
  rewrite (N.Div0.add_mod (a + 0x10)).
  pose proof (N.mod_upper_bound (a + 0x10) 0xe00 ltac:(lia)) as Ha.
  pose proof (N.mod_upper_bound (b - a) 0xe00 ltac:(lia)) as Hd.
  revert Ha Hd. generalize ((a + 0x10) mod 0xe00) ((b - a) mod 0xe00).
  intros ra rd Ha Hd.
  destruct (N.lt_ge_cases (ra + rd) 0xe00) as [Hlt|Hge].
  - rewrite N.mod_small by done. lia.
  - replace (ra + rd) with ((ra + rd - 0xe00) + 1 * 0xe00) by lia.
    rewrite N.Div0.mod_add, N.mod_small by lia. lia.
Qed.

Lemma handles_collide_at_period_witness :
  3 <= 7171 /\ 7171 + 0x10 < 2 ^ 32 /\
  (to_handle 3 = to_handle 7171 <-> (7171 - 3) mod 0xe00 = 0).
Proof.
  split; [lia|]. split; [reflexivity|].
  apply (handles_collide_at_period 3 7171); [lia|reflexivity].
Defined.

(** ** The registry in quiescent states *)

Lemma registry_lookup_sound F s h i :
  quiescent F s -> acl_connections_ s !! h = Some i ->
  exists c entry,
    connections s !! i = Some c /\
    disconnect_callback c = Some entry /\
    entry < log_size s /\
    h = to_handle entry /\
    management_callbacks c = true /\
    (dequeue_callback c = Some h \/ dequeue_callback c = None).
Proof.
  intros Hq Hh. destruct (quiescent_sound F s Hq) as [Hconns Hreg].
  destruct (Hreg h i Hh) as (c & entry & Hc & Hentry & <-).
  destruct (Hconns i c Hc) as (entry' & A1 & A2 & A3 & A4).
  replace entry' with entry in * by congruence.
  by exists c, entry.
Qed.

Lemma registry_key_uint16 F s h i :
  quiescent F s -> acl_connections_ s !! h = Some i -> uint16 h = h.
Proof.
  intros Hq Hh. destruct (registry_lookup_sound F s h i Hq Hh)
    as (c & entry & _ & _ & _ & -> & _).
  pose proof (to_handle_lt entry). apply N.mod_small. lia.
Qed.

Lemma Disconnect_run s h i c :
  acl_connections_ s !! uint16 h = Some i ->
  connections s !! i = Some c ->
  Disconnect (mkLeHandleMsg h) s =
    Done (Returned Status_OK)
      (set_connections
         (<[i := connection_Disconnect REMOTE_USER_TERMINATED_CONNECTION c]>
            (connections s)) s).
Proof.
  intros Hh Hc. unfold Disconnect. facade. rewrite Hh.
  by rewrite (with_connection_run _ _ _ _ Hc).
Qed.

(** X2. In every quiescent state a registry entry has a handle below
    [0xe00] and leads to a live connection object whose disconnect
    callback is bound to a request in the log, whose handle is the
    entry's key, and whose dequeue callback, if still registered, tags
    incoming data with that handle. *)
Theorem registry_entries_sound F s h i :
  quiescent F s ->
  acl_connections_ s !! h = Some i ->
  h < 0xe00 /\
  exists c entry,
    connections s !! i = Some c /\
    disconnect_callback c = Some entry /\
    entry < log_size s /\
    h = to_handle entry /\
    management_callbacks c = true /\
    (dequeue_callback c = Some h \/ dequeue_callback c = None).
Proof.
  intros Hq Hh.
  destruct (registry_lookup_sound F s h i Hq Hh) as (c & entry & H).
  split; [|by exists c, entry].
  destruct H as (_ & _ & _ & -> & _). apply to_handle_lt.
Qed.

Lemma registry_entries_sound_witness :
  0x10 < 0xe00 /\
  exists c entry,
    connections one_outstanding !! 0%nat = Some c /\
    disconnect_callback c = Some entry /\
    entry < log_size one_outstanding /\
    0x10 = to_handle entry /\
    management_callbacks c = true /\
    (dequeue_callback c = Some 0x10 \/ dequeue_callback c = None).
Proof.
  apply (registry_entries_sound parse_address one_outstanding 0x10 0%nat).
  - apply one_outstanding_quiescent.
  - reflexivity.
Defined.

(** X3. In every quiescent state the disconnect callback bound to a
    connection runs to completion: the entry it was bound with indexes a
    channel of the Request Event Log. *)
Theorem bound_disconnect_in_bounds F s i c code :
  quiescent F s ->
  connections s !! i = Some c ->
  exists entry s',
    disconnect_callback c = Some entry /\
    entry < log_size s /\
    on_disconnect i entry code s = Done tt s'.
Proof.
  intros Hq Hc. destruct (quiescent_sound F s Hq) as [Hconns _].
  destruct (Hconns i c Hc) as (entry & A1 & A2 & _).
  destruct (lookup_log _ _ A2) as [q Hqueue].
  exists entry. eexists. split; [done|]. split; [done|].
  by eapply on_disconnect_run.
Qed.

Lemma bound_disconnect_in_bounds_witness :
  exists entry s',
    disconnect_callback (registered 0 fresh_connection) = Some entry /\
    entry < log_size one_outstanding /\
    on_disconnect 0%nat entry 0x13 one_outstanding = Done tt s'.
Proof.
  apply (bound_disconnect_in_bounds parse_address one_outstanding 0%nat
           (registered 0 fresh_connection) 0x13).
  - apply one_outstanding_quiescent.
  - reflexivity.
Defined.

(** X4. No operation removes a registry entry or makes it lead to another
    connection, and none removes a connection object. *)
Theorem registry_entries_never_change F op s s' h i :
  perform F op s = Some s' ->
  acl_connections_ s !! h = Some i ->
  acl_connections_ s' !! h = Some i /\
  (length (connections s) <= length (connections s'))%nat.
Proof.
  intros Hop Hh. pose proof (perform_heap_step F _ _ _ Hop) as Hstep.
  split; [by eapply heap_step_registry_kept|].
  destruct Hstep as [_ Hev|connection _ _ Econns _].
  - by rewrite (Forall2_length _ _ _ Hev).
  - rewrite Econns, length_app. lia.
Qed.

Lemma registry_entries_never_change_witness :
  exists s',
    perform parse_address (RunOnDisconnect 0%nat 0 0x13) one_outstanding = Some s' /\
    acl_connections_ s' !! 0x10 = Some 0%nat /\
    (length (connections one_outstanding) <= length (connections s'))%nat.
Proof.
  eexists. split; [reflexivity|].
  apply (registry_entries_never_change parse_address (RunOnDisconnect 0%nat 0 0x13)
           one_outstanding _ 0x10 0%nat); reflexivity.
Defined.

(** ** Disconnect and send on a registered handle *)

(** X5. In every quiescent state [Disconnect] on a registered handle
    returns OK and asks that one connection to disconnect with reason
    REMOTE_USER_TERMINATED_CONNECTION; nothing else changes, and the
    registry keeps the entry. *)
Theorem Disconnect_registered F s h i :
  quiescent F s ->
  acl_connections_ s !! uint16 h = Some i ->
  exists c,
    connections s !! i = Some c /\
    Disconnect (mkLeHandleMsg h) s =
      Done (Returned Status_OK)
        (set_connections
           (<[i := connection_Disconnect REMOTE_USER_TERMINATED_CONNECTION c]>
              (connections s)) s).
Proof.
  intros Hq Hh.
  destruct (registry_lookup_sound F s _ i Hq Hh) as (c & entry & Hc & _).
  exists c. split; [done|]. by apply Disconnect_run.
Qed.

Lemma Disconnect_registered_witness :
  exists c,
    connections one_outstanding !! 0%nat = Some c /\
    Disconnect (mkLeHandleMsg 0x10) one_outstanding =
      Done (Returned Status_OK)
        (set_connections
           (<[0%nat := connection_Disconnect REMOTE_USER_TERMINATED_CONNECTION c]>
              (connections one_outstanding)) one_outstanding).
Proof.
  apply (Disconnect_registered parse_address one_outstanding 0x10 0%nat).
  - apply one_outstanding_quiescent.
  - reflexivity.
Defined.

(** X6. In every quiescent state [SendAclData] on a registered handle
    registers the enqueue callback on that connection and waits; the
    callback [enqueue_packet] then unregisters it and hands the queue a
    raw packet of the request's payload bytes. After the two, the
    connection has no enqueue callback and nothing else has changed. *)
Theorem SendAclData_then_enqueue_packet F s request i :
  quiescent F s ->
  acl_connections_ s !! uint16 (handle request) = Some i ->
  exists c s1,
    connections s !! i = Some c /\
    SendAclData request s = Done WaitingForEnqueue s1 /\
    connections s1 !! i = Some (RegisterEnqueue request c) /\
    enqueue_packet request s1 =
      Done (RawBuilder (map uint8 (payload request)))
        (set_connections (<[i := UnregisterEnqueue c]> (connections s)) s).
Proof.
  intros Hq Hh.
  destruct (registry_lookup_sound F s _ i Hq Hh) as (c & entry & Hc & _).
  exists c. eexists. split; [done|]. split.
  - unfold SendAclData. facade. rewrite Hh.
    by rewrite (with_connection_run _ _ _ _ Hc).
  - cbn. assert (i < length (connections s))%nat as Hi by (by eapply lookup_lt_Some).
    split; [by apply list_lookup_insert_eq|].
    unfold enqueue_packet. facade. rewrite Hh.
    erewrite with_connection_run by (cbn; by apply list_lookup_insert_eq).
    cbn. by rewrite list_insert_insert_eq.
Qed.

Lemma SendAclData_then_enqueue_packet_witness :
  exists c s1,
    connections one_outstanding !! 0%nat = Some c /\
    SendAclData (mkLeAclData 0x10 [1; 2; 0xff]) one_outstanding
      = Done WaitingForEnqueue s1 /\
    connections s1 !! 0%nat = Some (RegisterEnqueue (mkLeAclData 0x10 [1; 2; 0xff]) c) /\
    enqueue_packet (mkLeAclData 0x10 [1; 2; 0xff]) s1 =
      Done (RawBuilder (map uint8 [1; 2; 0xff]))
        (set_connections (<[0%nat := UnregisterEnqueue c]> (connections one_outstanding))
           one_outstanding).
Proof.
  apply (SendAclData_then_enqueue_packet parse_address one_outstanding
           (mkLeAclData 0x10 [1; 2; 0xff]) 0%nat).
  - apply one_outstanding_quiescent.
  - reflexivity.
Defined.

(** ** Incoming data *)

(** X7. [n] dequeue notifications of a connection that holds at least [n]
    received packets relay the first [n] packets, in the order received
    and each tagged with the bound handle, to the shared data channel
    behind what it already holds; the connection keeps the packets that
    follow, and the registry, the Request Event Log and the sequence
    number are unchanged. *)
Theorem on_incoming_acl_relays_in_order n connection handle s c :
  connections s !! connection = Some c ->
  (n <= length (rx_queue c))%nat ->
  on_incoming_acl_times n connection handle s =
    Done tt
      (set_pending_acl_data
         (mkGrpcEventQueue (log_name (pending_acl_data_ s))
            (pending_events (pending_acl_data_ s)
             ++ map (mkLeAclData handle) (take n (rx_queue c))))
         (set_connections
            (<[connection := set_rx_queue (drop n (rx_queue c)) c]> (connections s)) s)).
Proof.
  revert connection handle s c.
  induction n as [|n IH]; intros connection handle s c Hc Hn.
  - cbn [on_incoming_acl_times]. rewrite drop_0, take_0. cbn [map].
    rewrite set_rx_queue_id, list_insert_id, app_nil_r by done.
    by destruct s as [? ? ? [] ? ?].
  - destruct (rx_queue c) as [|packet rest] eqn:Hrx; [cbn in Hn; lia|].
    cbn [on_incoming_acl_times]. unfold mbind at 1. unfold Facade_bind.
    rewrite (on_incoming_acl_run _ _ _ _ _ _ Hc Hrx).
    rewrite (IH connection handle _ (set_rx_queue rest c)); [| |].
    + cbn. rewrite list_insert_insert_eq, <- app_assoc. reflexivity.
    + cbn. apply list_lookup_insert_eq. by eapply lookup_lt_Some.
    + cbn in *. lia.
Qed.

Lemma on_incoming_acl_relays_in_order_witness :
  on_incoming_acl_times 2 0%nat 0x10 one_receiving =
    Done tt
      (set_pending_acl_data
         (mkGrpcEventQueue "FetchAclData"
            [mkLeAclData 0x10 [1; 2]; mkLeAclData 0x10 [3]])
         (set_connections
            [set_rx_queue [[4; 5; 6]] (registered 0 receiving_connection)]
            one_receiving)).
Proof.
  apply (on_incoming_acl_relays_in_order 2 0%nat 0x10 one_receiving
           (registered 0 receiving_connection)).
  - reflexivity.
  - cbn. lia.
Defined.

(** ** Teardown *)

(** X8. In every quiescent state the destructor runs to completion and
    changes connections only: every connection the registry leads to has
    its dequeue callback unregistered, and a connection no registry
    entry leads to is left as it is, its dequeue callback included. *)
Theorem destructor_unregisters_registry F s :
  quiescent F s ->
  exists conns',
    destructor s = Done tt (set_connections conns' s) /\
    length conns' = length (connections s) /\
    (forall h i, acl_connections_ s !! h = Some i ->
       exists c, connections s !! i = Some c /\
                 conns' !! i = Some (UnregisterDequeue c)) /\
    (forall i c, connections s !! i = Some c ->
       (forall h, acl_connections_ s !! h <> Some i) ->
       conns' !! i = Some c).
Proof.
  intros Hq. rewrite destructor_fold.
  set (ids := (registry_entries (acl_connections_ s)).*2).
  assert (forall i, i ∈ ids <-> exists h, acl_connections_ s !! h = Some i) as Hids.
  { intros i. unfold ids. rewrite list_elem_of_fmap. split.
    - intros ([h j] & -> & Hin). exists h. by apply registry_entries_elem.
    - intros [h Hh]. exists (h, i). split; [done|]. by apply registry_entries_elem. }
  destruct (unregister_all_run ids s) as (conns' & Hrun & Hlen & Hlook).
  { apply Forall_forall. intros i Hi. apply Hids in Hi as [h Hh].
    destruct (registry_lookup_sound F s h i Hq Hh) as (c & _ & Hc & _). by exists c. }
  exists conns'. split; [exact Hrun|]. split; [exact Hlen|]. split.
  - intros h i Hh.
    destruct (registry_lookup_sound F s h i Hq Hh) as (c & _ & Hc & _).
    exists c. split; [done|]. rewrite (Hlook i c Hc).
    rewrite decide_True; [done|]. apply Hids. by exists h.
  - intros i c Hc Hnone. rewrite (Hlook i c Hc).
    rewrite decide_False; [done|]. intros Hin. apply Hids in Hin as [h Hh].
    by apply (Hnone h).
Qed.

Lemma destructor_unregisters_registry_witness :
  exists conns',
    destructor one_outstanding = Done tt (set_connections conns' one_outstanding) /\
    conns' !! 0%nat = Some (UnregisterDequeue (registered 0 fresh_connection)).
Proof.
  destruct (destructor_unregisters_registry parse_address one_outstanding
              one_outstanding_quiescent) as (conns' & Hrun & _ & Hreg & _).
  exists conns'. split; [exact Hrun|].
  destruct (Hreg 0x10 0%nat eq_refl) as (c & Hc & Hlook).
  injection Hc as <-. exact Hlook.
Defined.

(** ** The admission slot *)





Lemma terminal_completes a s s' :
  terminal a s = Done tt s' ->
  current_connection_request_ s < log_size s /\
  log_size s' = log_size s /\
  current_connection_request_ s' = uint32 (current_connection_request_ s + 1).
Proof.
  destruct a as [peer connection|peer reason]; cbn [terminal].
  - apply OnLeConnectSuccess_completes.
  - apply OnLeConnectFail_completes.
Qed.

(** X11. The slot is freed by the terminal callback: in a quiescent state
    whose log holds fewer than [2 ^ 32] channels, once the connect-success
    or connect-failure callback has completed, the next [CreateConnection]
    and the next [FetchIncomingConnection] are admitted, as request
    number [seq + 1]. *)
Theorem next_request_admitted F s a request peer_address s' :
  quiescent F s ->
  log_size s < 2 ^ 32 ->
  terminal a s = Done tt s' ->
  F (address request) = Some peer_address ->
  (exists s'', CreateConnection F request s'
               = Done (InRunLoop (current_connection_request_ s + 1)) s'') /\
  (exists s'', FetchIncomingConnection s'
               = Done (InRunLoop (current_connection_request_ s + 1)) s'').
Proof.
  intros Hq Hfit Hterm HF.
  pose proof (quiescent_invariant F s Hq Hfit) as Hinv.
  destruct (completion_restores_equality s s' Hinv Hfit (terminal_completes _ _ _ Hterm))
    as (_ & Hcur & Heq).
  rewrite <- Hcur. split; eexists.
  - by apply CreateConnection_accepted.
  - rewrite FetchIncomingConnection_admission. by apply admission_accepted.
Qed.

Lemma next_request_admitted_witness :
  (exists s'', CreateConnection parse_address sample_request
                 (after_failure one_outstanding) = Done (InRunLoop (1 + 1)) s'') /\
  (exists s'', FetchIncomingConnection (after_failure one_outstanding)
               = Done (InRunLoop (1 + 1)) s'').
Proof.
  apply (next_request_admitted parse_address one_outstanding
           (ConnectFail sample_peer 0x3e) sample_request (GetAddress sample_peer)
           (after_failure one_outstanding)).
  - apply one_outstanding_quiescent.
  - unfold log_size. cbn. lia.
  - reflexivity.
  - reflexivity.
Defined.

(** X12. The stream of one request delivers its events in the order they
    happened: after an admitted [CreateConnection], the connect-success
    callback and the disconnect callback of the new connection, the
    drained stream holds the success event and then the disconnect
    event, both with handle [to_handle seq]. The connection is finished
    with its dequeue callback unregistered, and the registry is as the
    connect-success callback left it: when the handle was free, its
    entry still leads to the new connection; when the handle was taken,
    the registry is the one before the request. *)
Theorem stream_delivers_success_then_disconnect F request peer_address peer connection code s :
  F (address request) = Some peer_address ->
  log_size s = current_connection_request_ s ->
  exists s',
    (CreateConnection F request;;
     OnLeConnectSuccess peer connection;;
     on_disconnect (length (connections s)) (current_connection_request_ s) code;;
     drain (current_connection_request_ s)) s =
      Done [success_event (current_connection_request_ s) peer;
            disconnect_event (current_connection_request_ s) code] s' /\
    connections s' =
      connections s ++
        [Finish (UnregisterDequeue (registered (current_connection_request_ s) connection))] /\
    (acl_connections_ s !! to_handle (current_connection_request_ s) = None ->
     acl_connections_ s' =
       <[to_handle (current_connection_request_ s) := length (connections s)]>
         (acl_connections_ s) /\
     acl_connections_ s' !! to_handle (current_connection_request_ s)
     = Some (length (connections s))) /\
    (is_Some (acl_connections_ s !! to_handle (current_connection_request_ s)) ->
     acl_connections_ s' = acl_connections_ s).
Proof.
  intros HF Heq. pose proof (log_size_index _ Heq) as Hi.
  eexists. split.
  - unfold mbind at 1. unfold Facade_bind.
    rewrite (CreateConnection_accepted F _ _ _ HF Heq).
    unfold mbind at 1. unfold Facade_bind.
    erewrite OnLeConnectSuccess_run
      by (cbn; rewrite Hi; apply list_lookup_middle; reflexivity).
    cbn. unfold mbind at 1. unfold Facade_bind.
    erewrite on_disconnect_run;
      [|cbn; by apply list_lookup_middle
       |cbn; rewrite Hi, insert_app_r_alt, Nat.sub_diag by done; cbn;
        apply list_lookup_middle; reflexivity].
    cbn. erewrite drain_run
      by (cbn; rewrite Hi, list_insert_insert_eq, insert_app_r_alt, Nat.sub_diag by done;
          cbn; apply list_lookup_middle; reflexivity).
    reflexivity.
  - cbn. split; [by rewrite insert_app_r_alt, Nat.sub_diag by done|]. split.
    + intros Hfree. rewrite emplace_absent by done.
      split; [done|]. apply lookup_insert_eq.
    + apply emplace_present.
Qed.

Lemma stream_delivers_success_then_disconnect_witness :
  exists s',
    (CreateConnection parse_address sample_request;;
     OnLeConnectSuccess sample_peer fresh_connection;;
     on_disconnect 0%nat 0 0x13;;
     drain 0) initial_state =
      Done [success_event 0 sample_peer; disconnect_event 0 0x13] s' /\
    connections s' = [Finish (UnregisterDequeue (registered 0 fresh_connection))] /\
    acl_connections_ s' = {[ 0x10 := 0%nat ]} /\
    acl_connections_ s' !! 0x10 = Some 0%nat.
Proof.
  destruct (stream_delivers_success_then_disconnect parse_address sample_request
              (GetAddress sample_peer) sample_peer fresh_connection 0x13 initial_state
              eq_refl eq_refl) as (s' & Hrun & Hconns & Hfree & _).
  exists s'. split; [exact Hrun|]. split; [exact Hconns|].
  apply Hfree. reflexivity.
Defined.

(** X13. Among the first [0xe00] requests every successful connection is
    registered: in a quiescent state whose log holds at most [0xe00]
    channels, the connect-success callback of the outstanding request
    finds its handle free and inserts the new connection under it. *)
Theorem first_period_connection_registered F s peer connection :
  quiescent F s ->
  log_size s <= 0xe00 ->
  current_connection_request_ s < log_size s ->
  exists s',
    OnLeConnectSuccess peer connection s = Done tt s' /\
    acl_connections_ s !! to_handle (current_connection_request_ s) = None /\
    acl_connections_ s' !! to_handle (current_connection_request_ s)
    = Some (length (connections s)) /\
    connections s' !! length (connections s)
    = Some (registered (current_connection_request_ s) connection).
Proof.
  intros Hq Hlog Hlt.
  assert (acl_connections_ s !! to_handle (current_connection_request_ s) = None)
    as Hfree.
  { destruct (acl_connections_ s !! _) as [i|] eqn:E; [|done]. exfalso.
    destruct (registry_lookup_sound F s _ i Hq E) as (c & entry & Hc & Hentry & _ & Hh & _).
    pose proof (quiescent_entries_below F s Hq ltac:(lia) i c entry Hc Hentry) as Hbelow.
    symmetry in Hh. revert Hh. apply to_handle_distinct; lia. }
  destruct (lookup_log _ _ Hlt) as [q Hqueue].
  eexists. split; [by apply OnLeConnectSuccess_run|]. cbn.
  split; [done|]. split; [by apply emplace_lookup_new|].
  by apply list_lookup_middle.
Qed.

Lemma first_period_connection_registered_witness :
  exists s',
    OnLeConnectSuccess sample_peer fresh_connection one_outstanding = Done tt s' /\
    acl_connections_ one_outstanding !! to_handle 1 = None /\
    acl_connections_ s' !! to_handle 1 = Some 1%nat /\
    connections s' !! 1%nat = Some (registered 1 fresh_connection).
Proof.
  apply (first_period_connection_registered parse_address one_outstanding
           sample_peer fresh_connection).
  - apply one_outstanding_quiescent.
  - unfold log_size. cbn. lia.
  - unfold log_size. cbn. lia.
Defined.

(** ** The connection manager *)

(** X14. Every completed [CreateConnection] has a well-formed address and
    adds exactly one call of the connection manager's connect primitive,
    for the request's peer, whether the request is admitted or rejected;
    every other completed operation leaves the record of the manager's
    calls as it is. *)
Theorem manager_called_by_CreateConnection_only F op s s' :
  perform F op s = Some s' ->
  match op with
  | CallCreateConnection request =>
      exists peer_address,
        F (address request) = Some peer_address /\
        acl_manager_calls s' = acl_manager_calls s ++ [peer_of peer_address request]
  | _ => acl_manager_calls s' = acl_manager_calls s
  end.
Proof.
  destruct op; cbn [perform].
  - destruct (CreateConnection F request s) as [r s1|] eqn:E; [|done]. intros [= <-].
    destruct (F (address request)) as [peer_address|] eqn:HF;
      [|by rewrite CreateConnection_malformed in E].
    exists peer_address. split; [done|].
    rewrite (CreateConnection_admission _ _ _ HF) in E. revert E. facade.
    intros E. by apply admission_calls in E.
  - unfold Disconnect. facade.
    destruct (_ !! _); [|by intros [= <-]].
    destruct (with_connection _ _ s) as [[] s1|] eqn:E; [|done]. intros [= <-].
    by apply with_connection_frame in E as (_ & _ & _ & _ & E).
  - rewrite FetchIncomingConnection_admission.
    destruct (admission _ _ s) as [r s1|] eqn:E; [|done]. intros [= <-].
    by apply admission_calls in E.
  - unfold SendAclData. facade.
    destruct (_ !! _); [|by intros [= <-]].
    destruct (with_connection _ _ s) as [[] s1|] eqn:E; [|done]. intros [= <-].
    by apply with_connection_frame in E as (_ & _ & _ & _ & E).
  - by intros [= <-].
  - unfold enqueue_packet. facade. destruct (_ !! _); [|done].
    destruct (with_connection _ _ s) as [[] s1|] eqn:E; [|done]. intros [= <-].
    by apply with_connection_frame in E as (_ & _ & _ & _ & E).
  - unfold on_incoming_acl. facade.
    destruct (connections s !! connection); [|done].
    destruct (rx_queue _) as [|packet rest]; [done|]. facade.
    destruct (with_connection _ _ s) as [[] s1|] eqn:E; [|done]. intros [= <-].
    by apply with_connection_frame in E as (_ & _ & _ & _ & E).
  - unfold on_disconnect. facade.
    destruct (with_connection _ _ s) as [[] s1|] eqn:E1; [|done].
    destruct (with_connection _ _ s1) as [[] s2|] eqn:E2; [|done].
    unfold per_connection_OnIncomingEvent. destruct (_ !! _); [|done].
    intros [= <-].
    apply with_connection_frame in E1 as (_ & _ & _ & _ & E1).
    apply with_connection_frame in E2 as (_ & _ & _ & _ & E2).
    cbn. congruence.
  - destruct (OnLeConnectSuccess peer connection s) as [[] s1|] eqn:E; [|done].
    intros [= <-].
    destruct (per_connection_events_ s !! N.to_nat (current_connection_request_ s))
      as [q|] eqn:Eq; [|by rewrite OnLeConnectSuccess_abort in E].
    rewrite (OnLeConnectSuccess_run _ _ _ _ Eq) in E. by injection E as <-.
  - destruct (OnLeConnectFail peer reason s) as [[] s1|] eqn:E; [|done].
    intros [= <-].
    destruct (per_connection_events_ s !! N.to_nat (current_connection_request_ s))
      as [q|] eqn:Eq; [|by rewrite OnLeConnectFail_abort in E].
    rewrite (OnLeConnectFail_run _ _ _ _ Eq) in E. by injection E as <-.
  - by intros [= <-].
  - unfold drain. destruct (_ !! _); [|done]. by intros [= <-].
Qed.

Lemma manager_called_by_CreateConnection_only_witness :
  (exists s',
     perform parse_address (CallCreateConnection sample_request) one_outstanding = Some s' /\
     exists peer_address,
       parse_address (address sample_request) = Some peer_address /\
       acl_manager_calls s'
       = acl_manager_calls one_outstanding ++ [peer_of peer_address sample_request]) /\
  (exists s',
     perform parse_address CallFetchIncomingConnection initial_state = Some s' /\
     acl_manager_calls s' = acl_manager_calls initial_state).
Proof.
  split; eexists.
  - split; [reflexivity|].
    apply (manager_called_by_CreateConnection_only parse_address
             (CallCreateConnection sample_request) one_outstanding).
    reflexivity.
  - split; [reflexivity|].
    apply (manager_called_by_CreateConnection_only parse_address
             CallFetchIncomingConnection initial_state).
    reflexivity.
Defined.

(** ** After the link is gone *)

(** X15. The registry is not pruned on disconnect: after the disconnect
    callback of a registered connection has run, [Disconnect] on its
    handle still returns OK, not INVALID_ARGUMENT, and asks the finished
    connection to disconnect. *)
Theorem handle_stays_valid_after_disconnect F s h i c entry code s' :
  quiescent F s ->
  acl_connections_ s !! h = Some i ->
  connections s !! i = Some c ->
  disconnect_callback c = Some entry ->
  on_disconnect i entry code s = Done tt s' ->
  Disconnect (mkLeHandleMsg h) s' =
    Done (Returned Status_OK)
      (set_connections
         (<[i := connection_Disconnect REMOTE_USER_TERMINATED_CONNECTION
                   (Finish (UnregisterDequeue c))]> (connections s')) s').
Proof.
  intros Hq Hh Hc Hentry Hrun.
  assert (i < length (connections s))%nat as Hi by (by eapply lookup_lt_Some).
  destruct (quiescent_sound F s Hq) as [Hconns _].
  destruct (Hconns i c Hc) as (entry' & A1 & A2 & _).
  replace entry' with entry in * by congruence.
  destruct (lookup_log _ _ A2) as [q Hqueue].
  rewrite (on_disconnect_run _ _ _ _ _ _ Hc Hqueue) in Hrun. injection Hrun as <-.
  apply Disconnect_run; cbn.
  - by rewrite (registry_key_uint16 F s h i Hq Hh).
  - by apply list_lookup_insert_eq.
Qed.

Lemma handle_stays_valid_after_disconnect_witness :
  exists s',
    on_disconnect 0%nat 0 0x13 one_outstanding = Done tt s' /\
    Disconnect (mkLeHandleMsg 0x10) s' =
      Done (Returned Status_OK)
        (set_connections
           (<[0%nat := connection_Disconnect REMOTE_USER_TERMINATED_CONNECTION
                         (Finish (UnregisterDequeue (registered 0 fresh_connection)))]>
              (connections s')) s').
Proof.
  eexists. split; [vm_compute; reflexivity|].
  apply (handle_stays_valid_after_disconnect parse_address one_outstanding 0x10 0%nat
           (registered 0 fresh_connection) 0 0x13).
  - apply one_outstanding_quiescent.
  - reflexivity.
  - reflexivity.
  - reflexivity.
  - reflexivity.
Defined.
